(** * Verification of the dataset transform and render loop of
      examples/simple_graph/simple_graph.js

    Definitions come first, module by module:
    - [Dataset]   : the hard-coded [bucket] of [createGraph] (line 159);
    - [Transform] : the pure part of [createGraph] (lines 160-186), from the
                    dataset to the node and edge lists;
    - [Options], [This], [Defaults] : the option defaults of
                    [Drawing.SimpleGraph] (lines 51-67);
    - [Drawing]   : the effectful part ([init], the two population loops of
                    [createGraph], [drawNode], [drawEdge], [render],
                    [animate], [printInfo]) over an explicit world state,
                    with the collaborators (GRAPHVIS.Graph,
                    Layout.ForceDirected, the page elements of Three.js and
                    Stats.js) behind the class [Collaborators];
    - [Standin]   : one instance of the collaborators, to run the program on.
    The proofs follow in the same order. *)

From stdpp Require Import base option list strings pretty gmap.

(** ** JavaScript data of the dataset transform *)

(** An entry of [bucket.tracks]: [{trackId, tags?, note?}].  [trackId] is a
    JavaScript number; every id of the dataset is a non-negative integer
    far below 2^53, for which the template literal [`T${trackId}`] yields the
    plain decimal numeral, [pretty] on [N].  A missing property reads as
    [undefined], rendered [None]. *)
Record Track := mkTrack {
  trackId : N;
  tags : option (list string);
  note : option string
}.

Record Bucket := mkBucket {
  bucket_tracks : list Track;
  bucket_tags : list string
}.

(** Node and edge descriptions built by the transform (object literals of
    lines 166-170, 172-175 and 180-184). *)
Record NodeData := mkNodeData { id : string; label : string; group : string }.
Record EdgeData := mkEdgeData { from : string; to : string }.

Global Instance Track_eq_dec : EqDecision Track.
Proof. solve_decision. Defined.
Global Instance NodeData_eq_dec : EqDecision NodeData.
Proof. solve_decision. Defined.
Global Instance EdgeData_eq_dec : EqDecision EdgeData.
Proof. solve_decision. Defined.

(** ** The hard-coded dataset (line 159) *)

Module Dataset.

Definition bucket : Bucket :=
  {| bucket_tracks := [
    mkTrack 480700689 None None;
    mkTrack 359978594 None None;
    mkTrack 356671463 None None;
    mkTrack 356272697 None None;
    mkTrack 344049175 (Some ["electronic"; "ambient"; "experimental"; "hiphopbeat"]) None;
    mkTrack 185501964 (Some ["electronic"; "ambient"; "chill"]) None;
    mkTrack 340786932 None None;
    mkTrack 340014346 (Some ["electronic"; "rap"; "experimental"]) None;
    mkTrack 340864271 None None;
    mkTrack 338882196 None None;
    mkTrack 340850433 None None;
    mkTrack 340858419 None None;
    mkTrack 339810494 None None;
    mkTrack 340187504 (Some ["funky"; "future"]) None;
    mkTrack 340158750 (Some ["electronic"]) None;
    mkTrack 340004927 None None;
    mkTrack 337445405 None None;
    mkTrack 340028180 None None;
    mkTrack 339848591 None None;
    mkTrack 339804837 (Some ["rap"; "electronic"]) None;
    mkTrack 339452530 None None;
    mkTrack 339712633 (Some ["electronic"; "house"; "future"]) None;
    mkTrack 337440468 (Some ["electronic"; "remix"]) None;
    mkTrack 343562073 None None;
    mkTrack 337864490 (Some ["electronic"]) None;
    mkTrack 320515013 (Some ["experimental"; "electronic"; "chill"]) None;
    mkTrack 307741754 (Some ["ambient"; "electronic"]) None;
    mkTrack 310703664 (Some ["electronic"; "future"]) None;
    mkTrack 305079285 (Some ["experimental"]) None;
    mkTrack 303601544 None None;
    mkTrack 303504889 (Some ["funky"; "chill"]) None;
    mkTrack 300196390 (Some ["ambient"; "electronic"]) None;
    mkTrack 220929372 (Some ["electronic"; "trap"]) (Some "hype but chill");
    mkTrack 211483614 (Some ["ambient"; "electronic"]) None;
    mkTrack 291958088 (Some ["electronic"; "ambient"; "experimental"; "chill"]) None;
    mkTrack 257091221 (Some ["electronic"; "ambient"; "chill"]) (Some "has a nice, heavy beat");
    mkTrack 297755853 (Some ["experimental"; "electronic"; "chill"; "funky"]) None;
    mkTrack 296685652 (Some ["electronic"; "rap"]) None;
    mkTrack 214698107 None None;
    mkTrack 270011377 (Some ["electronic"; "experimental"; "chill"]) None;
    mkTrack 292125528 (Some ["electronic"; "ambient"; "chill"]) None;
    mkTrack 299510194 (Some ["electronic"; "experimental"; "remix"]) None;
    mkTrack 298434286 (Some ["electronic"; "funky"; "remix"]) None;
    mkTrack 264628389 (Some ["ambient"; "chill"]) None;
    mkTrack 297297656 None None;
    mkTrack 296502414 (Some ["ambient"; "electronic"; "chill"]) None;
    mkTrack 297156837 (Some ["electronic"; "ambient"; "experimental"]) None;
    mkTrack 297455260 None None;
    mkTrack 292618548 (Some ["electronic"; "chill"]) None;
    mkTrack 295592367 (Some ["electronic"; "future"; "trap"]) None;
    mkTrack 296087000 (Some ["electronic"]) None;
    mkTrack 295165549 (Some ["electronic"; "funky"; "deep"]) None;
    mkTrack 295165352 (Some ["electronic"; "chill"]) None;
    mkTrack 294489171 (Some ["electronic"; "experimental"; "trap"]) None;
    mkTrack 295161513 (Some ["electronic"; "future"; "chill"]) None;
    mkTrack 227042825 (Some ["electronic"; "ambient"; "chill"]) None;
    mkTrack 246195391 (Some ["electronic"]) None;
    mkTrack 274569356 (Some ["remix"]) None;
    mkTrack 281670564 (Some ["remix"; "electronic"]) None;
    mkTrack 281024707 (Some ["electronic"; "deep"; "house"; "remix"]) None;
    mkTrack 294901395 (Some ["chill"; "electronic"]) None;
    mkTrack 294279693 (Some ["electronic"; "experimental"; "remix"]) None;
    mkTrack 284887739 (Some ["electronic"; "ambient"; "future"; "chill"; "experimental"; "remix"]) None;
    mkTrack 294231299 (Some ["electronic"; "experimental"]) None;
    mkTrack 293351192 None None;
    mkTrack 293196567 (Some ["electronic"; "trap"]) None;
    mkTrack 294164740 (Some ["electronic"; "ambient"; "cover"]) None;
    mkTrack 294164678 (Some ["electronic"; "funky"; "experimental"]) None;
    mkTrack 188441762 (Some ["electronic"; "experimental"; "ambient"]) None;
    mkTrack 293659186 (Some ["electronic"; "ambient"]) None;
    mkTrack 293969465 (Some ["electronic"; "chill"]) None;
    mkTrack 293585764 (Some ["electronic"; "experimental"; "chill"]) None;
    mkTrack 267315572 None None;
    mkTrack 285435997 (Some ["electronic"; "chill"]) None;
    mkTrack 228024161 (Some ["remix"; "electronic"; "chill"]) None;
    mkTrack 283523608 (Some ["electronic"; "future"; "funky"]) None;
    mkTrack 285853076 (Some ["electronic"; "future"; "chill"]) None;
    mkTrack 285709322 (Some ["electronic"; "remix"; "experimental"]) None;
    mkTrack 284266335 (Some []) None;
    mkTrack 283814781 (Some ["electronic"; "ambient"; "chill"]) None;
    mkTrack 245940906 (Some ["ambient"; "electronic"]) None;
    mkTrack 283852262 None None;
    mkTrack 266399001 None None;
    mkTrack 283052283 None None;
    mkTrack 283083300 None None;
    mkTrack 248426231 None None;
    mkTrack 282734118 None None;
    mkTrack 281672945 None None;
    mkTrack 271291165 None None;
    mkTrack 281674269 None None;
    mkTrack 278404934 None None;
    mkTrack 278366594 None None;
    mkTrack 271409580 None None;
    mkTrack 271256313 None None
  ];
     bucket_tags := ["electronic"; "ambient"; "experimental"; "future"; "funky"; "trap"; "chill"; "rap"; "deep"; "remix"; "house"; "cover"; "hiphopbeat"] |}.

End Dataset.

(** ** The dataset transform (lines 160-186) *)

Module Transform.

(** [tags && tags.length]: [undefined] is falsy, an array is truthy and its
    length is truthy when it is not 0. *)
Definition has_tags (t : Track) : bool :=
  match tags t with
  | None => false
  | Some tgs => negb (length tgs =? 0)%nat
  end.

(** The three variables the [forEach] callback of line 163 writes. *)
Record Acc := mkAcc {
  trackNodes : list NodeData;
  trackNodeId : option string;
  edges : list EdgeData
}.

Definition acc0 : Acc := mkAcc [] None [].

(** Lines 171-176: the inner [forEach]; [push] appends at the end. *)
Definition push_edges (nodeId : string) (tgs : list string) (es : list EdgeData)
  : list EdgeData :=
  fold_left (fun es tag => es ++ [ {| from := nodeId; to := "C" +:+ tag |} ]) tgs es.

(** Lines 163-178: one call of the outer callback.  [trackNodeId] is assigned
    before the node and the edges read it. *)
Definition track_step (a : Acc) (t : Track) : Acc :=
  if has_tags t then
    let nodeId := "T" +:+ pretty (trackId t) in
    {| trackNodes := trackNodes a ++ [ {| id := nodeId; label := ""; group := "tracks" |} ];
       trackNodeId := Some nodeId;
       edges := push_edges nodeId (default [] (tags t)) (edges a) |}
  else a.

Definition tracks_loop (b : Bucket) : Acc :=
  fold_left track_step (bucket_tracks b) acc0.

(** Lines 180-184. *)
Definition tagNodes (b : Bucket) : list NodeData :=
  (fun tag => {| id := "C" +:+ tag; label := tag; group := "tags" |}) <$> bucket_tags b.

(** Line 186. *)
Definition nodes (b : Bucket) : list NodeData :=
  trackNodes (tracks_loop b) ++ tagNodes b.

Definition edge_list (b : Bucket) : list EdgeData := edges (tracks_loop b).

End Transform.

(** ** What the transform is expected to emit, track by track *)

Module Expected.

Definition track_node (t : Track) : NodeData :=
  {| id := "T" +:+ pretty (trackId t); label := ""; group := "tracks" |}.

Definition tag_node (tag : string) : NodeData :=
  {| id := "C" +:+ tag; label := tag; group := "tags" |}.

Definition track_edge (t : Track) (tag : string) : EdgeData :=
  {| from := "T" +:+ pretty (trackId t); to := "C" +:+ tag |}.

Definition nodes_of_track (t : Track) : list NodeData :=
  if Transform.has_tags t then [track_node t] else [].

Definition edges_of_track (t : Track) : list EdgeData :=
  if Transform.has_tags t then track_edge t <$> default [] (tags t) else [].

(** [tag] is one of the tags of track [t] of the bucket. *)
Definition association (b : Bucket) (t : Track) (tag : string) : Prop :=
  t ∈ bucket_tracks b ∧ ∃ tgs, tags t = Some tgs ∧ tag ∈ tgs.

(** Every tag a track carries is listed in [bucket.tags]. *)
Definition tags_closed (b : Bucket) : Prop :=
  Forall (fun t => Forall (fun tag => tag ∈ bucket_tags b) (default [] (tags t)))
         (bucket_tracks b).

(** No track lists the same tag twice. *)
Definition tags_simple (b : Bucket) : Prop :=
  Forall (fun t => NoDup (default [] (tags t))) (bucket_tracks b).

End Expected.

(** Track ids that are JavaScript safe integers (non-negative, below 2^53):
    for these the template literal of line 165 yields "T" followed by the
    plain decimal numeral, which is how [Transform.track_step] renders it. *)
Definition safe_track_ids (b : Bucket) : Prop :=
  Forall (fun t => (trackId t < 2 ^ 53)%N) (bucket_tracks b).

(** The tracks that pass the test of line 164. *)
Definition tagged_tracks (b : Bucket) : list Track :=
  filter (fun t => Transform.has_tags t = true) (bucket_tracks b).

(** ** Option defaults of [Drawing.SimpleGraph] (lines 51-67) *)

(** Layout options ([options.graphLayout], completed at lines 206-209). *)
Record LayoutOptions := mkLayoutOptions {
  width : option Z;
  height : option Z;
  iterations : option Z;
  lo_layout : option string
}.

(** The [options] argument; an omitted property reads as [undefined],
    rendered [None]. *)
Module Options.
Record t := mk {
  layout : option string;
  graphLayout : option LayoutOptions;
  showStats : option bool;
  showInfo : option bool;
  showLabels : option bool;
  selection : option bool;
  limit : option Z;
  numNodes : option Z;
  numEdges : option Z
}.

(** [{}], what [options || {}] falls back to. *)
Definition empty : t := mk None None None None None None None None None.
End Options.

(** The public fields of the constructed object ([this], alias [that]). *)
Module This.
Record t := mk {
  layout : string;
  layout_options : LayoutOptions;
  show_stats : bool;
  show_info : bool;
  show_labels : bool;
  selection : bool;
  limit : Z;
  nodes_count : Z;
  edges_count : Z
}.
End This.

Module Defaults.

(** [v || d] on an optional number: [undefined] and [0] are falsy. *)
Definition num_or (v : option Z) (d : Z) : Z :=
  match v with
  | Some n => if (n =? 0)%Z then d else n
  | None => d
  end.

(** [v || d] on an optional string: [undefined] and the empty string are
    falsy. *)
Definition str_or (v : option string) (d : string) : string :=
  match v with
  | Some s => if decide (s = "") then d else s
  | None => d
  end.

(** [v || false] on an optional boolean. *)
Definition bool_or_false (v : option bool) : bool := default false v.

(** [v || {}] on the optional layout options. *)
Definition layout_options_or_empty (v : option LayoutOptions) : LayoutOptions :=
  default (mkLayoutOptions None None None None) v.

(** Lines 52-62.  The argument itself may be missing. *)
Definition this_of (options : option Options.t) : This.t :=
  let options := default Options.empty options in
  {| This.layout := str_or (Options.layout options) "2d";
     This.layout_options := layout_options_or_empty (Options.graphLayout options);
     This.show_stats := bool_or_false (Options.showStats options);
     This.show_info := bool_or_false (Options.showInfo options);
     This.show_labels := bool_or_false (Options.showLabels options);
     This.selection := bool_or_false (Options.selection options);
     This.limit := num_or (Options.limit options) 10;
     This.nodes_count := num_or (Options.numNodes options) 20;
     This.edges_count := num_or (Options.numEdges options) 10 |}.

(** Line 67: the [limit] property of the object handed to
    [new GRAPHVIS.Graph]. *)
Definition graph_limit_arg (options : option Options.t) : option Z :=
  Options.limit (default Options.empty options).

End Defaults.

(** ** The drawing: objects, collaborators and world state *)

(** Address of a [GRAPHVIS.Node] object.  Node objects are shared between
    [graphVisNodes], [graph.nodes] and the scene, and are written after they
    have been handed out ([drawNode] runs after [addNode]), so they live in a
    store and are passed around by address. *)
Definition ref := nat.

(** The [THREE.Mesh] of a node: the id copied from the node and the colour
    looked up in [nodeColors].  Geometry, material and the (random, then
    layout-driven) position are left to Three.js. *)
Record Mesh := mkMesh { mesh_id : string; color : option Z }.

(** A node object as far as this file reads and writes it: [id] and the
    properties of [data]. *)
Record NodeObj := mkNodeObj {
  node_id : string;
  title : option string;
  data_group : option string;
  draw_object : option Mesh;
  label_object : option string
}.

(** Children of the scene, named by the node (or nodes) they draw. *)
Inductive SceneObj :=
  | SMesh (r : ref)
  | SLabel (r : ref)
  | SLine (source target : ref).

Global Instance SceneObj_eq_dec : EqDecision SceneObj.
Proof. solve_decision. Defined.

(** An element of the page, in document order. *)
Record Element := mkElement {
  tagName : string;
  elem_id : option string;
  innerHTML : string
}.

(** Calls the population and render code makes, in the order made. *)
Inductive Call :=
  | CallAddNode (r : ref) (added : bool)
  | CallDrawNode (r : ref)
  | CallAddEdge (source target : option ref) (added : bool)
  | CallDrawEdge (source target : option ref)
  | CallGenerate.

Global Instance Call_eq_dec : EqDecision Call.
Proof. solve_decision. Defined.

(** The collaborators of the file: the graph container, the force-directed
    layout, and the page elements owned by the renderer and the FPS box.
    Each method takes the state of the object it is called on and returns the
    state it leaves; [addNode] and [addEdge] also return whether their result
    is truthy.  They are assumed to return normally. *)
Class Collaborators := {
  Graph : Type;
  Layout : Type;
  Graph_new : option Z → Graph;
  Graph_nodes : Graph → list ref;
  Graph_edges : Graph → list (ref * ref);
  Graph_addNode : Graph → list NodeObj → ref → bool * Graph;
  Graph_addEdge : Graph → list NodeObj → option ref → option ref → bool * Graph;
  Layout_new : Graph → LayoutOptions → Layout;
  Layout_init : Layout → Graph → Layout * Graph;
  Layout_finished : Layout → bool;
  Layout_generate : Layout → Graph → Layout * Graph;
  Layout_stop_calculating : Layout → Graph → Layout * Graph;
  renderer_domElement : Element;
  stats_domElement : Element
}.

(** The layout never adds or removes a node or an edge of the graph. *)
Definition layout_keeps_graph (C : Collaborators) : Prop :=
  ∀ l g,
    (Graph_nodes (Layout_generate l g).2 = Graph_nodes g
     ∧ Graph_edges (Layout_generate l g).2 = Graph_edges g)
    ∧ (Graph_nodes (Layout_stop_calculating l g).2 = Graph_nodes g
       ∧ Graph_edges (Layout_stop_calculating l g).2 = Graph_edges g).

Inductive Error := TypeError.

Inductive Outcome (A : Type) :=
  | Returned (a : A)
  | Thrown (e : Error).
Arguments Returned {A} a.
Arguments Thrown {A} e.

Module Drawing.
Section with_collaborators.
Context {C : Collaborators}.

(** The closure variables of [Drawing.SimpleGraph] and what they reach. *)
Record World := mkWorld {
  that : This.t;
  graph : Graph;
  graph_layout : option Layout;
  heap : list NodeObj;
  scene : list SceneObj;
  geometries : list (ref * ref);
  info_text : list (string * string);
  document : list Element;
  calls : list Call
}.

Definition upd_that (f : This.t → This.t) (w : World) : World :=
  mkWorld (f (that w)) (graph w) (graph_layout w) (heap w) (scene w)
          (geometries w) (info_text w) (document w) (calls w).
Definition upd_graph (f : Graph → Graph) (w : World) : World :=
  mkWorld (that w) (f (graph w)) (graph_layout w) (heap w) (scene w)
          (geometries w) (info_text w) (document w) (calls w).
Definition upd_graph_layout (f : option Layout → option Layout) (w : World) : World :=
  mkWorld (that w) (graph w) (f (graph_layout w)) (heap w) (scene w)
          (geometries w) (info_text w) (document w) (calls w).
Definition upd_heap (f : list NodeObj → list NodeObj) (w : World) : World :=
  mkWorld (that w) (graph w) (graph_layout w) (f (heap w)) (scene w)
          (geometries w) (info_text w) (document w) (calls w).
Definition upd_scene (f : list SceneObj → list SceneObj) (w : World) : World :=
  mkWorld (that w) (graph w) (graph_layout w) (heap w) (f (scene w))
          (geometries w) (info_text w) (document w) (calls w).
Definition upd_geometries (f : list (ref * ref) → list (ref * ref)) (w : World) : World :=
  mkWorld (that w) (graph w) (graph_layout w) (heap w) (scene w)
          (f (geometries w)) (info_text w) (document w) (calls w).
Definition upd_info_text (f : list (string * string) → list (string * string))
    (w : World) : World :=
  mkWorld (that w) (graph w) (graph_layout w) (heap w) (scene w)
          (geometries w) (f (info_text w)) (document w) (calls w).
Definition upd_document (f : list Element → list Element) (w : World) : World :=
  mkWorld (that w) (graph w) (graph_layout w) (heap w) (scene w)
          (geometries w) (info_text w) (f (document w)) (calls w).
Definition upd_calls (f : list Call → list Call) (w : World) : World :=
  mkWorld (that w) (graph w) (graph_layout w) (heap w) (scene w)
          (geometries w) (info_text w) (document w) (f (calls w)).

(** *** Computations: world passing, with exceptions that keep the world *)

Definition M (A : Type) : Type := World → Outcome A * World.

Definition ret {A} (a : A) : M A := fun w => (Returned a, w).

Definition bind {A B} (m : M A) (k : A → M B) : M B :=
  fun w => match m w with
           | (Returned a, w') => k a w'
           | (Thrown e, w') => (Thrown e, w')
           end.

Definition throw {A} (e : Error) : M A := fun w => (Thrown e, w).
Definition get : M World := fun w => (Returned w, w).
Definition modify (f : World → World) : M unit := fun w => (Returned tt, f w).

End with_collaborators.

Notation "x <- m ;; k" := (bind m (fun x => k))
  (at level 62, m at next level, right associativity, only parsing).
Notation "m ;;; k" := (bind m (fun _ => k))
  (at level 62, right associativity, only parsing).

Section with_collaborators.
Context {C : Collaborators}.

Fixpoint forEach {A} (f : A → M unit) (l : list A) : M unit :=
  match l with
  | [] => ret tt
  | x :: l => f x ;;; forEach f l
  end.

(** [forEach] whose callback updates a variable of the enclosing function. *)
Fixpoint forEach_with {A S} (f : S → A → M S) (l : list A) (s : S) : M S :=
  match l with
  | [] => ret s
  | x :: l => s' <- f s x ;; forEach_with f l s'
  end.

(** *** Primitive accesses *)

(** [new GRAPHVIS.Node(id)]: a fresh object with empty [data]. *)
Definition new_Node (i : string) : M ref :=
  fun w => (Returned (length (heap w)),
            upd_heap (fun h => h ++ [mkNodeObj i None None None None]) w).

(** Reading a property of [o]: a [TypeError] when [o] is [undefined]. *)
Definition deref (o : option ref) : M NodeObj :=
  fun w => match o ≫= (fun r => heap w !! r) with
           | Some n => (Returned n, w)
           | None => (Thrown TypeError, w)
           end.

Definition write (r : ref) (f : NodeObj → NodeObj) : M unit :=
  modify (upd_heap (alter f r)).

Definition set_title (v : option string) (n : NodeObj) : NodeObj :=
  mkNodeObj (node_id n) v (data_group n) (draw_object n) (label_object n).
Definition set_data_group (v : option string) (n : NodeObj) : NodeObj :=
  mkNodeObj (node_id n) (title n) v (draw_object n) (label_object n).
Definition set_draw_object (v : option Mesh) (n : NodeObj) : NodeObj :=
  mkNodeObj (node_id n) (title n) (data_group n) v (label_object n).
Definition set_label_object (v : option string) (n : NodeObj) : NodeObj :=
  mkNodeObj (node_id n) (title n) (data_group n) (draw_object n) v.

(** [o.data.draw_object.position]: a [TypeError] when [o] or its
    [draw_object] is [undefined]. *)
Definition draw_object_position (o : option ref) : M Mesh :=
  n <- deref o ;;
  match draw_object n with
  | Some m => ret m
  | None => throw TypeError
  end.

Definition log (c : Call) : M unit := modify (upd_calls (fun l => l ++ [c])).

(** [scene.add] appends a child, [scene.remove] takes one out. *)
Definition scene_add (o : SceneObj) : M unit := modify (upd_scene (fun l => l ++ [o])).

Fixpoint remove_first (o : SceneObj) (l : list SceneObj) : list SceneObj :=
  match l with
  | [] => []
  | x :: l => if decide (x = o) then l else x :: remove_first o l
  end.

Definition scene_remove (o : SceneObj) : M unit := modify (upd_scene (remove_first o)).

(** [graph.addNode(node)] and [graph.addEdge(source, target)]. *)
Definition addNode (r : ref) : M bool :=
  fun w => let '(added, g) := Graph_addNode (graph w) (heap w) r in
           (Returned added,
            upd_calls (fun l => l ++ [CallAddNode r added]) (upd_graph (fun _ => g) w)).

Definition addEdge (source target : option ref) : M bool :=
  fun w => let '(added, g) := Graph_addEdge (graph w) (heap w) source target in
           (Returned added,
            upd_calls (fun l => l ++ [CallAddEdge source target added])
                      (upd_graph (fun _ => g) w)).

(** [info_text[k] = v] keeps the position of an existing key and appends a
    new one; [for ... in] visits the keys in that order. *)
Fixpoint set_prop (k v : string) (o : list (string * string)) : list (string * string) :=
  match o with
  | [] => [(k, v)]
  | (k', v') :: o => if decide (k' = k) then (k, v) :: o else (k', v') :: set_prop k v o
  end.

Fixpoint get_prop (k : string) (o : list (string * string)) : option string :=
  match o with
  | [] => None
  | (k', v') :: o => if decide (k' = k) then Some v' else get_prop k o
  end.

Definition delete_prop (k : string) (o : list (string * string)) : list (string * string) :=
  filter (fun kv => kv.1 ≠ k) o.

Definition set_info (k v : string) : M unit := modify (upd_info_text (set_prop k v)).

(** [document.getElementById]: the first element with the id. *)
Definition getElementById (i : string) (doc : list Element) : option Element :=
  head (filter (fun e => elem_id e = Some i) doc).

(** [document.getElementById(i).innerHTML = s]; [None] when there is no such
    element. *)
Fixpoint set_innerHTML (i s : string) (doc : list Element) : option (list Element) :=
  match doc with
  | [] => None
  | e :: doc =>
      if decide (elem_id e = Some i) then Some (mkElement (tagName e) (elem_id e) s :: doc)
      else (e ::.) <$> set_innerHTML i s doc
  end.

Definition appendChild (e : Element) : M unit := modify (upd_document (fun d => d ++ [e])).

(** *** [init] (lines 77-147), as far as it touches the world *)

Definition graph_info_div : Element := mkElement "div" (Some "graph-info") "".

Definition init : M unit :=
  modify (upd_scene (fun _ => [])) ;;;
  appendChild renderer_domElement ;;;
  w <- get ;;
  (if This.show_stats (that w) then appendChild stats_domElement else ret tt) ;;;
  (if This.show_info (that w) then appendChild graph_info_div else ret tt).

(** The [selected] callback handed to [THREE.ObjectSelection] (lines 115-122);
    [obj] is the id of the selected mesh, or [null]. *)
Definition selected (obj : option string) : M unit :=
  match obj with
  | Some i => set_info "select" ("Object " +:+ i)
  | None => modify (upd_info_text (delete_prop "select"))
  end.

(** *** [drawNode] (lines 219-251) and [drawEdge] (lines 257-275) *)

Definition nodeColors (g : option string) : option Z :=
  if decide (g = Some "tracks") then Some 0xcd5c5c%Z
  else if decide (g = Some "tags") then Some 0x97ba28%Z
  else None.

Definition label_text (n : NodeObj) : string := default (node_id n) (title n).

Definition drawNode (node : ref) : M unit :=
  log (CallDrawNode node) ;;;
  n <- deref (Some node) ;;
  w <- get ;;
  (if This.show_labels (that w)
   then write node (set_label_object (Some (label_text n))) ;;; scene_add (SLabel node)
   else ret tt) ;;;
  write node (set_draw_object (Some (mkMesh (node_id n) (nodeColors (data_group n))))) ;;;
  scene_add (SMesh node).

Definition drawEdge (source target : option ref) : M unit :=
  log (CallDrawEdge source target) ;;;
  draw_object_position source ;;;
  draw_object_position target ;;;
  match source, target with
  | Some s, Some t =>
      modify (upd_geometries (fun l => l ++ [(s, t)])) ;;; scene_add (SLine s t)
  | _, _ => throw TypeError
  end.

(** *** [createGraph] (lines 155-214) *)

(** Lines 191-198: the callback of [nodes.forEach]; [graphVisNodes] is the
    object it fills.  Its keys all start with "T" or "C", which no property
    inherited from [Object.prototype] does, so a finite map renders it. *)
Definition node_step (graphVisNodes : gmap string ref) (node : NodeData)
  : M (gmap string ref) :=
  newNode <- new_Node (id node) ;;
  (if decide (label node = "") then ret tt
   else write newNode (set_title (Some (label node)))) ;;;
  write newNode (set_data_group (Some (group node))) ;;;
  added <- addNode newNode ;;
  (if added then drawNode newNode else ret tt) ;;;
  n <- deref (Some newNode) ;;
  ret (<[node_id n := newNode]> graphVisNodes).

(** Lines 200-204: the callback of [edges.forEach]. *)
Definition edge_step (graphVisNodes : gmap string ref) (edge : EdgeData) : M unit :=
  let fromNode := graphVisNodes !! from edge in
  let toNode := graphVisNodes !! to edge in
  added <- addEdge fromNode toNode ;;
  if added then drawEdge fromNode toNode else ret tt.

(** Lines 189-204 for given node and edge descriptions. *)
Definition populate (nodes : list NodeData) (edges : list EdgeData) : M unit :=
  graphVisNodes <- forEach_with node_step nodes ∅ ;;
  forEach (edge_step graphVisNodes) edges.

(** Lines 206-209. *)
Definition complete_layout_options (t : This.t) : This.t :=
  let lo := This.layout_options t in
  This.mk (This.layout t)
    {| width := Some (Defaults.num_or (width lo) 2000);
       height := Some (Defaults.num_or (height lo) 2000);
       iterations := Some (Defaults.num_or (iterations lo) 100000);
       lo_layout := Some (Defaults.str_or (lo_layout lo) (This.layout t)) |}
    (This.show_stats t) (This.show_info t) (This.show_labels t) (This.selection t)
    (This.limit t) (This.nodes_count t) (This.edges_count t).

(** Lines 210-211. *)
Definition start_layout : M unit :=
  modify (fun w =>
    let l := Layout_new (graph w) (This.layout_options (that w)) in
    let '(l', g') := Layout_init l (graph w) in
    upd_graph_layout (fun _ => Some l') (upd_graph (fun _ => g') w)).

Definition createGraph : M unit :=
  populate (Transform.nodes Dataset.bucket) (Transform.edge_list Dataset.bucket) ;;;
  modify (upd_that complete_layout_options) ;;;
  start_layout ;;;
  w <- get ;;
  set_info "nodes" ("Nodes " +:+ pretty (length (Graph_nodes (graph w)))) ;;;
  set_info "edges" ("Edges " +:+ pretty (length (Graph_edges (graph w)))).

(** *** [render] (lines 288-350) *)

Definition calculating : string :=
  "<span style='color: red'>Calculating layout...</span>".

Definition generate : M unit :=
  fun w => match graph_layout w with
           | Some l =>
               let '(l', g') := Layout_generate l (graph w) in
               (Returned tt,
                upd_calls (fun c => c ++ [CallGenerate])
                  (upd_graph_layout (fun _ => Some l') (upd_graph (fun _ => g') w)))
           | None => (Thrown TypeError, w)
           end.

(** Lines 291-297. *)
Definition poll_layout : M unit :=
  w <- get ;;
  match graph_layout w with
  | None => throw TypeError
  | Some l =>
      if negb (Layout_finished l)
      then set_info "calc" calculating ;;; generate
      else set_info "calc" ""
  end.

(** Lines 310-325: body of the loop when labels are shown. *)
Definition show_label (node : ref) : M unit :=
  n <- deref (Some node) ;;
  match label_object n with
  | Some _ => draw_object_position (Some node) ;;; ret tt
  | None =>
      write node (set_label_object (Some (label_text n))) ;;; scene_add (SLabel node)
  end.

(** Lines 330-334: body of the loop when labels are hidden. *)
Definition hide_label (node : ref) : M unit :=
  n <- deref (Some node) ;;
  match label_object n with
  | Some _ => scene_remove (SLabel node) ;;; write node (set_label_object None)
  | None => ret tt
  end.

(** Lines 299-302 raise a flag on the Three.js geometries and lines 338-349
    call the selection, the FPS box and the renderer; they touch no state
    this file owns. *)
Definition render : M unit :=
  poll_layout ;;;
  w <- get ;;
  (if This.show_labels (that w)
   then forEach show_label (Graph_nodes (graph w))
   else forEach hide_label (Graph_nodes (graph w))).

(** *** [printInfo] (lines 355-364), [animate] (lines 278-285) and
        [stop_calculating] (lines 372-374) *)

(** Lines 358-361: one round of the loop, for the value [v] of the key. *)
Definition info_step (str v : string) : string :=
  (if decide (str ≠ "" ∧ v ≠ "") then str +:+ " - " else str) +:+ v.

Definition info_string (info : list (string * string)) : string :=
  fold_left (fun str kv => info_step str kv.2) info "".

Definition printInfo : M unit :=
  fun w => match set_innerHTML "graph-info" (info_string (info_text w)) (document w) with
           | Some d => (Returned tt, upd_document (fun _ => d) w)
           | None => (Thrown TypeError, w)
           end.

(** One animation frame.  [controls.update()] fires the 'change' event, whose
    listener is [render] (line 100), when the camera moved: [changed]. *)
Definition animate (changed : bool) : M unit :=
  (if changed then render else ret tt) ;;;
  render ;;;
  w <- get ;;
  (if This.show_info (that w) then printInfo else ret tt).

Definition stop_calculating : M unit :=
  fun w => match graph_layout w with
           | Some l =>
               let '(l', g') := Layout_stop_calculating l (graph w) in
               (Returned tt, upd_graph_layout (fun _ => Some l') (upd_graph (fun _ => g') w))
           | None => (Thrown TypeError, w)
           end.

(** *** The program after construction: what the page can trigger *)

Inductive Op :=
  | OpAnimate (changed : bool)
  | OpRender
  | OpPrintInfo
  | OpStopCalculating
  | OpSelected (obj : option string).

Definition run_op (op : Op) : M unit :=
  match op with
  | OpAnimate changed => animate changed
  | OpRender => render
  | OpPrintInfo => printInfo
  | OpStopCalculating => stop_calculating
  | OpSelected obj => selected obj
  end.

(** An exception ends the callback that raised it, not the page: the next
    operation starts from the world the failed one left. *)
Definition run_ops (ops : list Op) (w : World) : World :=
  fold_left (fun w op => (run_op op w).2) ops w.

(** Lines 52-71: the closure variables before [init] runs, in a document
    that holds the elements [page]. *)
Definition world0 (options : option Options.t) (page : list Element) : World :=
  mkWorld (Defaults.this_of options) (Graph_new (Defaults.graph_limit_arg options))
          None [] [] [] [] page [].

(** Lines 73-74. *)
Definition construct : M unit := init ;;; createGraph.

(** Lines 73-75: the constructor, first frame included. *)
Definition SimpleGraph (changed : bool) : M unit := construct ;;; animate changed.

(** The nodes and edges of the graph, and the ids of the node objects. *)
Definition graph_shape (w : World) : list ref * list (ref * ref) * list string :=
  (Graph_nodes (graph w), Graph_edges (graph w), node_id <$> heap w).

(** The node object as [node_step] hands it to [graph.addNode]. *)
Definition fresh_node (node : NodeData) : NodeObj :=
  mkNodeObj (id node) (if decide (label node = "") then None else Some (label node))
            (Some (group node)) None None.

(** Every entry of [graphVisNodes] is the address of a node object of the
    store, filed under the id of that object. *)
Definition graphVisNodes_ok (graphVisNodes : gmap string ref) (w : World) : Prop :=
  ∀ i r, graphVisNodes !! i = Some r → (node_id <$> heap w) !! r = Some i.

Definition is_node_call (c : Call) : Prop :=
  match c with
  | CallAddNode _ _ | CallDrawNode _ => True
  | _ => False
  end.

(** Classifiers for counting calls in a log. *)
Definition is_drawNode (c : Call) : bool :=
  match c with CallDrawNode _ => true | _ => false end.
Definition is_drawEdge (c : Call) : bool :=
  match c with CallDrawEdge _ _ => true | _ => false end.
Definition is_addEdge_of_nodes (c : Call) : bool :=
  match c with CallAddEdge (Some _) (Some _) _ => true | _ => false end.
Definition is_addEdge (c : Call) : bool :=
  match c with CallAddEdge _ _ _ => true | _ => false end.

(** [c] is the [addEdge] or the [drawEdge] call of [edge_step] for [e]. *)
Definition is_edge_call_of (graphVisNodes : gmap string ref) (e : EdgeData) (c : Call)
  : Prop :=
  (∃ added, c = CallAddEdge (graphVisNodes !! from e) (graphVisNodes !! to e) added)
  ∨ c = CallDrawEdge (graphVisNodes !! from e) (graphVisNodes !! to e).

(** An [addEdge] call whose two arguments are node objects of the store [h],
    carrying the ids some edge of [edges] names; any other call passes. *)
Definition addEdge_call_defined (edges : list EdgeData) (h : list NodeObj) (c : Call)
  : Prop :=
  match c with
  | CallAddEdge source target _ =>
      ∃ e rs rt ns nt,
        e ∈ edges ∧ source = Some rs ∧ target = Some rt
        ∧ h !! rs = Some ns ∧ node_id ns = from e
        ∧ h !! rt = Some nt ∧ node_id nt = to e
  | _ => True
  end.

(** Two strings with " - " between them when neither is empty. *)
Definition join2 (a b : string) : string :=
  if decide (a = "") then b else if decide (b = "") then a else a +:+ " - " +:+ b.

(** Tag name and id of every element of the page, in document order, and the
    show-info flag: what decides whether [printInfo] finds its element. *)
Definition skeleton (doc : list Element) : list (string * option string) :=
  (fun e => (tagName e, elem_id e)) <$> doc.

Definition page_shape (w : World) : bool * list (string * option string) :=
  (This.show_info (that w), skeleton (document w)).

(** [m] leaves the part [proj] of the world as it found it, whether it
    returns or throws. *)
Definition preserves {X A} (proj : World → X) (m : M A) : Prop :=
  ∀ w, proj (m w).2 = proj w.

(** What [drawNode] makes of the node object [n]: a mesh with the id of the
    node and the colour of its group, and a label when labels are shown. *)
Definition drawn_node (labels : bool) (n : NodeObj) : NodeObj :=
  set_draw_object (Some (mkMesh (node_id n) (nodeColors (data_group n))))
    (if labels then set_label_object (Some (label_text n)) n else n).

(** [o] is a node object of the store [h] that has a [draw_object]. *)
Definition drawn_at (h : list NodeObj) (o : option ref) : bool :=
  match o ≫= (fun r => h !! r) with
  | Some n => match draw_object n with Some _ => true | None => false end
  | None => false
  end.

(** Calls and scene children of one round of the node loop, for the node
    object at address [r] and the answer [added] of [graph.addNode]. *)
Definition node_round_calls (r : ref) (added : bool) : list Call :=
  CallAddNode r added :: (if added then [CallDrawNode r] else []).

Definition node_round_scene (labels : bool) (r : ref) (added : bool) : list SceneObj :=
  if added then (if labels then [SLabel r] else []) ++ [SMesh r] else [].

Definition node_round_object (labels : bool) (node : NodeData) (added : bool) : NodeObj :=
  if added then drawn_node labels (fresh_node node) else fresh_node node.

(** An [addNode] call that was answered with a falsy value. *)
Definition is_rejected_node (c : Call) : bool :=
  match c with CallAddNode _ false => true | _ => false end.

Definition is_label (o : SceneObj) : bool :=
  match o with SLabel _ => true | _ => false end.

(** The meshes and lines of a scene, and the endpoints of its lines. *)
Definition solid (sc : list SceneObj) : list SceneObj :=
  filter (fun o => is_label o = false) sc.

Definition lines_of (sc : list SceneObj) : list (ref * ref) :=
  omap (fun o => match o with SLine s t => Some (s, t) | _ => None end) sc.

(** [m] keeps the invariant [I], whether it returns or throws. *)
Definition keeps {A} (I : World → Prop) (m : M A) : Prop :=
  ∀ w, I w → I (m w).2.

End with_collaborators.
End Drawing.

(** ** Stand-ins for the collaborators *)

Module Standin.

(** Modelled from the spec: GRAPHVIS.Graph and Layout.ForceDirected are not
    among the sources.  The spec describes the first as a node/edge container,
    capped at a configurable node limit, whose add operations reject
    duplicates and report success or failure, and the second as an object
    with an init/generate/finished/stop-calculating contract. *)
Record SGraph := mkSGraph {
  sg_limit : option Z;
  sg_nodes : list ref;
  sg_ids : list string;
  sg_edges : list (ref * ref)
}.

Definition reached_limit (g : SGraph) : bool :=
  match sg_limit g with
  | Some lim => (lim <=? Z.of_nat (length (sg_nodes g)))%Z
  | None => false
  end.

Definition sg_addNode (g : SGraph) (h : list NodeObj) (r : ref) : bool * SGraph :=
  match h !! r with
  | Some n =>
      if decide (node_id n ∈ sg_ids g) then (false, g)
      else if reached_limit g then (false, g)
      else (true, mkSGraph (sg_limit g) (sg_nodes g ++ [r]) (sg_ids g ++ [node_id n])
                           (sg_edges g))
  | None => (false, g)
  end.

Definition sg_addEdge (g : SGraph) (h : list NodeObj) (source target : option ref)
  : bool * SGraph :=
  match source, target with
  | Some s, Some t =>
      if decide ((s, t) ∈ sg_edges g) then (false, g)
      else (true, mkSGraph (sg_limit g) (sg_nodes g) (sg_ids g) (sg_edges g ++ [(s, t)]))
  | _, _ => (false, g)
  end.

(** The layout as a countdown of the iterations left. *)
Definition SLayout := N.

Definition sl_new (g : SGraph) (lo : LayoutOptions) : SLayout :=
  Z.to_N (default 0%Z (iterations lo)).

Global Instance standin : Collaborators := {|
  Graph := SGraph;
  Layout := SLayout;
  Graph_new := fun limit => mkSGraph limit [] [] [];
  Graph_nodes := sg_nodes;
  Graph_edges := sg_edges;
  Graph_addNode := sg_addNode;
  Graph_addEdge := sg_addEdge;
  Layout_new := sl_new;
  Layout_init := fun l g => (l, g);
  Layout_finished := fun l => bool_decide (l = 0%N);
  Layout_generate := fun l g => (N.pred l, g);
  Layout_stop_calculating := fun l g => (0%N, g);
  renderer_domElement := mkElement "canvas" None "";
  stats_domElement := mkElement "div" (Some "stats") ""
|}.

(** A page that is empty before the script runs, and the options of the
    usage example in the header comment. *)
Definition example_options : Options.t :=
  Options.mk (Some "3d") None (Some true) (Some true) None None None None None.

Definition example_world : Drawing.World :=
  Drawing.world0 (Some example_options) [].

(** The world the constructor leaves, first frame included. *)
Definition constructed : Drawing.World :=
  (Drawing.SimpleGraph false example_world).2.

End Standin.

(** * Proofs *)

Module TransformFacts.
Import Transform Expected.

Lemma push_edges_spec nodeId tgs es :
  push_edges nodeId tgs es = es ++ ((fun tag => mkEdgeData nodeId ("C" +:+ tag)) <$> tgs).
Proof.
  unfold push_edges. revert es.
  induction tgs as [|tag tgs IH]; intros es; simpl.
  - by rewrite app_nil_r.
  - by rewrite IH, <- app_assoc.
Qed.

Lemma track_step_nodes a t :
  trackNodes (track_step a t) = trackNodes a ++ nodes_of_track t.
Proof.
  unfold track_step, nodes_of_track.
  destruct (has_tags t); simpl; [done | by rewrite app_nil_r].
Qed.

Lemma track_step_edges a t :
  edges (track_step a t) = edges a ++ edges_of_track t.
Proof.
  unfold track_step, edges_of_track.
  destruct (has_tags t); simpl; [apply push_edges_spec | by rewrite app_nil_r].
Qed.

Lemma fold_track_step trs a :
  trackNodes (fold_left track_step trs a) = trackNodes a ++ (trs ≫= nodes_of_track)
  ∧ edges (fold_left track_step trs a) = edges a ++ (trs ≫= edges_of_track).
Proof.
  revert a. induction trs as [|t trs IH]; intros a; simpl.
  - by rewrite !app_nil_r.
  - destruct (IH (track_step a t)) as [-> ->].
    by rewrite track_step_nodes, track_step_edges, <- !app_assoc.
Qed.

Lemma nodes_spec b :
  nodes b = (bucket_tracks b ≫= nodes_of_track) ++ (tag_node <$> bucket_tags b).
Proof. unfold nodes, tracks_loop. by rewrite (proj1 (fold_track_step _ _)). Qed.

Lemma edge_list_spec b : edge_list b = bucket_tracks b ≫= edges_of_track.
Proof. unfold edge_list, tracks_loop. by rewrite (proj2 (fold_track_step _ _)). Qed.

(** *** Selecting, from what a list of tracks emits, the items of one track *)

Lemma filter_all {A} (P : A → Prop) `{!∀ x, Decision (P x)} (l : list A) :
  Forall P l → filter P l = l.
Proof.
  induction 1 as [|x l Hx _ IH]; [done|].
  by rewrite filter_cons_True, IH.
Qed.

Lemma filter_none {A} (P : A → Prop) `{!∀ x, Decision (P x)} (l : list A) :
  Forall (fun x => ¬ P x) l → filter P l = [].
Proof.
  induction 1 as [|x l Hx _ IH]; [done|].
  by rewrite filter_cons_False.
Qed.

Lemma T_prefix_inj (i j : N) : "T" +:+ pretty i = "T" +:+ pretty j → i = j.
Proof. cbn. intros [= H]. by apply (inj pretty). Qed.

Lemma C_prefix_inj (s1 s2 : string) : "C" +:+ s1 = "C" +:+ s2 → s1 = s2.
Proof. cbn. by intros [= H]. Qed.

Lemma T_not_C (s1 s2 : string) : "T" +:+ s1 ≠ "C" +:+ s2.
Proof. cbn. by intros [= H]. Qed.

Section keyed.
(** [emit t] is what one track contributes and [key] the identifier by
    which its items are looked up; all items of [t] carry the key
    ["T" + trackId]. *)
Context {A : Type} (emit : Track → list A) (key : A → string).
Hypothesis emit_key :
  ∀ t x, x ∈ emit t → key x = "T" +:+ pretty (trackId t).

Lemma keyed_filter_other t t' :
  trackId t' ≠ trackId t →
  filter (fun x => key x = "T" +:+ pretty (trackId t)) (emit t') = [].
Proof.
  intros Hne. apply filter_none, Forall_forall. intros x Hx Hk.
  rewrite (emit_key _ _ Hx) in Hk. by apply T_prefix_inj in Hk.
Qed.

Lemma keyed_filter_self t :
  filter (fun x => key x = "T" +:+ pretty (trackId t)) (emit t) = emit t.
Proof. apply filter_all, Forall_forall. intros x Hx. by apply emit_key. Qed.

Lemma keyed_filter_absent trs t :
  trackId t ∉ trackId <$> trs →
  filter (fun x => key x = "T" +:+ pretty (trackId t)) (trs ≫= emit) = [].
Proof.
  induction trs as [|t0 trs IH]; [done|].
  rewrite fmap_cons, not_elem_of_cons. intros [Hne Hnotin].
  rewrite bind_cons, filter_app, IH by done.
  rewrite keyed_filter_other by done. done.
Qed.

Lemma keyed_filter_present trs t :
  NoDup (trackId <$> trs) → t ∈ trs →
  filter (fun x => key x = "T" +:+ pretty (trackId t)) (trs ≫= emit) = emit t.
Proof.
  induction trs as [|t0 trs IH]; [by intros _ ?%elem_of_nil|].
  rewrite fmap_cons, NoDup_cons. intros [Hnotin Hnd] Ht.
  rewrite bind_cons, filter_app.
  apply elem_of_cons in Ht as [->|Ht].
  - rewrite keyed_filter_self, keyed_filter_absent by done. by rewrite app_nil_r.
  - rewrite IH by done. rewrite keyed_filter_other; [done|].
    intros Heq. apply Hnotin. rewrite Heq. by apply list_elem_of_fmap_2.
Qed.
End keyed.

Lemma nodes_of_track_key t n :
  n ∈ nodes_of_track t → id n = "T" +:+ pretty (trackId t).
Proof.
  unfold nodes_of_track. destruct (has_tags t); [|by intros ?%elem_of_nil].
  by intros ->%list_elem_of_singleton.
Qed.

Lemma edges_of_track_key t e :
  e ∈ edges_of_track t → from e = "T" +:+ pretty (trackId t).
Proof.
  unfold edges_of_track. destruct (has_tags t); [|by intros ?%elem_of_nil].
  by intros (tag & -> & _)%list_elem_of_fmap.
Qed.

Lemma tag_nodes_no_T (tgs : list string) (s : string) :
  filter (fun n => id n = "T" +:+ s) (tag_node <$> tgs) = [].
Proof.
  apply filter_none, Forall_forall. intros n (tag & -> & _)%list_elem_of_fmap.
  simpl. intros H. by apply (T_not_C s tag).
Qed.

Lemma has_tags_cons t tag tgs : tags t = Some (tag :: tgs) → has_tags t = true.
Proof. unfold has_tags. by intros ->. Qed.

Lemma has_tags_none t : tags t = None → has_tags t = false.
Proof. unfold has_tags. by intros ->. Qed.

Lemma has_tags_nil t : tags t = Some [] → has_tags t = false.
Proof. unfold has_tags. by intros ->. Qed.

(** The general form of the per-track property: it holds of any bucket whose
    track ids are pairwise distinct. *)
Lemma per_track_output (b : Bucket) (t : Track) :
  NoDup (trackId <$> bucket_tracks b) → t ∈ bucket_tracks b →
  filter (fun n => id n = "T" +:+ pretty (trackId t)) (nodes b) = nodes_of_track t
  ∧ filter (fun e => from e = "T" +:+ pretty (trackId t)) (edge_list b)
    = edges_of_track t.
Proof.
  intros Hnd Ht. split.
  - rewrite nodes_spec, filter_app, tag_nodes_no_T, app_nil_r.
    by apply keyed_filter_present; [apply nodes_of_track_key|..].
  - rewrite edge_list_spec.
    by apply keyed_filter_present; [apply edges_of_track_key|..].
Qed.

Lemma filter_fmap_unique {A B K} `{EqDecision K} (f : A → B) (k : B → K)
    (l : list A) (x : A) :
  Inj (=) (=) (k ∘ f) → NoDup l → x ∈ l →
  filter (fun y => k y = k (f x)) (f <$> l) = [f x].
Proof.
  intros Hinj Hnd Hx. induction Hnd as [|a l Ha Hnd IH]; [by apply elem_of_nil in Hx|].
  rewrite fmap_cons. apply elem_of_cons in Hx as [->|Hx].
  - rewrite filter_cons_True by done. f_equal.
    apply filter_none, Forall_forall. intros y (a' & -> & Ha')%list_elem_of_fmap Hk.
    apply (Hinj a' a) in Hk. by subst.
  - rewrite filter_cons_False; [by apply IH|].
    intros Hk. apply (Hinj a x) in Hk. by subst.
Qed.

Lemma track_nodes_no_C (trs : list Track) (s : string) :
  filter (fun n => id n = "C" +:+ s) (trs ≫= nodes_of_track) = [].
Proof.
  apply filter_none, Forall_forall. intros n (t & Hn & _)%list_elem_of_bind.
  rewrite (nodes_of_track_key _ _ Hn). apply T_not_C.
Qed.

(** One tag node per entry of a duplicate-free [bucket.tags], whatever the
    tracks are. *)
Lemma per_tag_output (b : Bucket) (tag : string) :
  NoDup (bucket_tags b) → tag ∈ bucket_tags b →
  filter (fun n => id n = "C" +:+ tag) (nodes b) = [tag_node tag].
Proof.
  intros Hnd Htag.
  rewrite nodes_spec, filter_app, track_nodes_no_C. simpl.
  apply (filter_fmap_unique tag_node id); [|done..].
  intros s1 s2. apply C_prefix_inj.
Qed.

Lemma track_node_ids_NoDup (trs : list Track) :
  NoDup (trackId <$> trs) → NoDup (id <$> (trs ≫= nodes_of_track)).
Proof.
  induction trs as [|t trs IH]; [constructor|].
  rewrite fmap_cons, NoDup_cons, bind_cons, fmap_app. intros [Hnotin Hnd].
  apply NoDup_app. split_and!; [| |by apply IH].
  - unfold nodes_of_track. destruct (has_tags t); [apply NoDup_singleton | constructor].
  - intros i (n & -> & Hn)%list_elem_of_fmap (n' & Heq & Hn')%list_elem_of_fmap.
    apply list_elem_of_bind in Hn' as (t' & Hn' & Ht').
    rewrite (nodes_of_track_key _ _ Hn), (nodes_of_track_key _ _ Hn') in Heq.
    apply T_prefix_inj in Heq. apply Hnotin. rewrite Heq.
    by apply list_elem_of_fmap_2.
Qed.

Lemma node_ids_NoDup (b : Bucket) :
  NoDup (trackId <$> bucket_tracks b) → NoDup (bucket_tags b) →
  NoDup (id <$> nodes b).
Proof.
  intros Hids Htags. rewrite nodes_spec, fmap_app. apply NoDup_app. split_and!.
  - by apply track_node_ids_NoDup.
  - intros i (n & -> & Hn)%list_elem_of_fmap (n' & Heq & Hn')%list_elem_of_fmap.
    apply list_elem_of_bind in Hn as (t & Hn & _).
    apply list_elem_of_fmap in Hn' as (tag & -> & _).
    rewrite (nodes_of_track_key _ _ Hn) in Heq. by apply T_not_C in Heq.
  - rewrite <- list_fmap_compose. apply NoDup_fmap_2; [|done].
    intros s1 s2. apply C_prefix_inj.
Qed.

(** Where every node comes from. *)
Lemma elem_of_nodes (b : Bucket) (n : NodeData) :
  n ∈ nodes b ↔
  (∃ t, t ∈ bucket_tracks b ∧ has_tags t = true ∧ n = track_node t)
  ∨ (∃ tag, tag ∈ bucket_tags b ∧ n = tag_node tag).
Proof.
  rewrite nodes_spec, elem_of_app, list_elem_of_bind, list_elem_of_fmap.
  unfold nodes_of_track. split.
  - intros [(t & Hn & Ht) | (tag & -> & Htag)]; [left|right; eauto].
    destruct (has_tags t) eqn:E; [|by apply elem_of_nil in Hn].
    apply list_elem_of_singleton in Hn. eauto.
  - intros [(t & Ht & E & ->) | (tag & Htag & ->)]; [left|right; eauto].
    exists t. rewrite E. split; [apply list_elem_of_singleton|]; done.
Qed.

(** Where every edge comes from. *)
Lemma elem_of_edge_list (b : Bucket) (e : EdgeData) :
  e ∈ edge_list b ↔
  ∃ t tag, association b t tag ∧ e = track_edge t tag.
Proof.
  rewrite edge_list_spec, list_elem_of_bind. unfold edges_of_track, association, has_tags.
  split.
  - intros (t & He & Ht). destruct (tags t) as [tgs|] eqn:E; [|by apply elem_of_nil in He].
    destruct (negb _); [|by apply elem_of_nil in He].
    apply list_elem_of_fmap in He as (tag & -> & Htag). exists t, tag. eauto.
  - intros (t & tag & (Ht & tgs & E & Htag) & ->). exists t. split; [|done].
    rewrite E. destruct tgs as [|tg tgs]; [by apply elem_of_nil in Htag|].
    change (track_edge t tag ∈ track_edge t <$> (tg :: tgs)).
    by apply list_elem_of_fmap_2.
Qed.

Lemma association_has_tags b t tag : association b t tag → has_tags t = true.
Proof.
  intros (_ & tgs & E & Htag). unfold has_tags. rewrite E.
  destruct tgs; [by apply elem_of_nil in Htag | done].
Qed.

(** One edge per association, for distinct track ids and tag lists without
    repetition. *)
Lemma per_association_edge (b : Bucket) (t : Track) (tag : string) :
  NoDup (trackId <$> bucket_tracks b) → tags_simple b → association b t tag →
  filter (fun e => e = track_edge t tag) (edge_list b) = [track_edge t tag].
Proof.
  intros Hids Hsimple Hassoc.
  pose proof (association_has_tags _ _ _ Hassoc) as Hhas.
  destruct Hassoc as (Ht & tgs & E & Htag).
  rewrite <- (list_filter_filter_l _
    (fun e => from e = "T" +:+ pretty (trackId t))) by (by intros e ->).
  rewrite (proj2 (per_track_output b t Hids Ht)).
  unfold edges_of_track. rewrite Hhas, E. simpl.
  apply (filter_fmap_unique (track_edge t) (fun e => e)); [| |done].
  - intros s1 s2. unfold track_edge. simpl. intros [= H]. done.
  - unfold tags_simple in Hsimple. rewrite Forall_forall in Hsimple.
    specialize (Hsimple t Ht). by rewrite E in Hsimple.
Qed.

(** Both endpoints of an edge name nodes of the node list when the tag lists
    of the tracks stay within [bucket.tags]. *)
Lemma association_endpoints (b : Bucket) (t : Track) (tag : string) :
  tags_closed b → association b t tag →
  track_node t ∈ nodes b ∧ tag_node tag ∈ nodes b.
Proof.
  intros Hclosed Hassoc.
  pose proof (association_has_tags _ _ _ Hassoc) as Hhas.
  destruct Hassoc as (Ht & tgs & E & Htag). split; apply elem_of_nodes.
  - left. by exists t.
  - right. exists tag. split; [|done].
    unfold tags_closed in Hclosed. rewrite Forall_forall in Hclosed.
    specialize (Hclosed t Ht). rewrite E, Forall_forall in Hclosed. by apply Hclosed.
Qed.

Lemma edge_endpoint_ids (b : Bucket) (e : EdgeData) :
  tags_closed b → e ∈ edge_list b →
  from e ∈ id <$> nodes b ∧ to e ∈ id <$> nodes b.
Proof.
  intros Hclosed (t & tag & Hassoc & ->)%elem_of_edge_list.
  destruct (association_endpoints b t tag Hclosed Hassoc) as [Hf Ht].
  split.
  - by apply (list_elem_of_fmap_2 id) in Hf.
  - by apply (list_elem_of_fmap_2 id) in Ht.
Qed.

End TransformFacts.

(** ** Facts of the hard-coded dataset, decided by evaluation *)

Module DatasetFacts.
Import Dataset Expected.

Lemma bucket_track_ids_NoDup : NoDup (trackId <$> bucket_tracks bucket).
Proof. apply (bool_decide_unpack _). vm_compute. exact I. Qed.

Lemma bucket_tags_NoDup : NoDup (bucket_tags bucket).
Proof. apply (bool_decide_unpack _). vm_compute. exact I. Qed.

Lemma bucket_tags_simple : tags_simple bucket.
Proof. apply (bool_decide_unpack _). vm_compute. exact I. Qed.

Lemma bucket_tags_closed : tags_closed bucket.
Proof. apply (bool_decide_unpack _). vm_compute. exact I. Qed.

End DatasetFacts.

(** ** The transform on the hard-coded dataset *)

Module TransformClaims.
Import Dataset Transform Expected TransformFacts DatasetFacts.

(** C1.  For every track entry of [bucket.tracks]: when its tag list is
    present and non-empty, the produced node list has exactly one node with
    id ["T" + trackId], it is in group "tracks", and the edges leaving it are
    exactly one per element of the tag list, in order; when the tag list is
    absent or empty, no node has that id and no edge leaves it. *)
Theorem track_entry_output (t : Track) :
  t ∈ bucket_tracks bucket →
  let tid := "T" +:+ pretty (trackId t) in
  match tags t with
  | Some (tag :: tgs) =>
      filter (fun n => id n = tid) (nodes bucket)
        = [ {| id := tid; label := ""; group := "tracks" |} ]
      ∧ filter (fun e => from e = tid) (edge_list bucket)
        = (fun tg => {| from := tid; to := "C" +:+ tg |}) <$> (tag :: tgs)
  | Some [] | None =>
      filter (fun n => id n = tid) (nodes bucket) = []
      ∧ filter (fun e => from e = tid) (edge_list bucket) = []
  end.
Proof.
  intros Ht tid.
  destruct (per_track_output bucket t bucket_track_ids_NoDup Ht) as [Hn He].
  fold tid in Hn, He. rewrite Hn, He. unfold nodes_of_track, edges_of_track.
  destruct (tags t) as [[|tag tgs]|] eqn:E.
  - by rewrite (has_tags_nil _ E).
  - by rewrite (has_tags_cons _ _ _ E).
  - by rewrite (has_tags_none _ E).
Qed.

Lemma track_entry_output_witness :
  (filter (fun n => id n = "T" +:+ pretty 185501964%N) (nodes bucket)
     = [ {| id := "T" +:+ pretty 185501964%N; label := ""; group := "tracks" |} ]
   ∧ filter (fun e => from e = "T" +:+ pretty 185501964%N) (edge_list bucket)
     = (fun tg => {| from := "T" +:+ pretty 185501964%N; to := "C" +:+ tg |})
         <$> ["electronic"; "ambient"; "chill"])
  ∧ (filter (fun n => id n = "T" +:+ pretty 284266335%N) (nodes bucket) = []
     ∧ filter (fun e => from e = "T" +:+ pretty 284266335%N) (edge_list bucket) = []).
Proof.
  split.
  - apply (track_entry_output (mkTrack 185501964 (Some ["electronic"; "ambient"; "chill"]) None)).
    apply (bool_decide_unpack _). vm_compute. exact I.
  - apply (track_entry_output (mkTrack 284266335 (Some []) None)).
    apply (bool_decide_unpack _). vm_compute. exact I.
Defined.

(** C2.  Every tag of [bucket.tags] gets exactly one node, with id
    ["C" + tag], group "tags" and the tag text as label, whatever list of
    tracks the bucket holds (so however many tracks carry the tag). *)
Theorem tag_node_once (trs : list Track) (tag : string) :
  tag ∈ bucket_tags bucket →
  filter (fun n => id n = "C" +:+ tag) (nodes (mkBucket trs (bucket_tags bucket)))
  = [ {| id := "C" +:+ tag; label := tag; group := "tags" |} ].
Proof. intros Htag. apply per_tag_output; [apply bucket_tags_NoDup | done]. Qed.

Lemma tag_node_once_witness :
  filter (fun n => id n = "C" +:+ "chill") (nodes bucket)
  = [ {| id := "C" +:+ "chill"; label := "chill"; group := "tags" |} ].
Proof.
  apply (tag_node_once (bucket_tracks bucket) "chill").
  apply (bool_decide_unpack _). vm_compute. exact I.
Defined.

(** C3.  Every produced node id is the group letter ("T" for group "tracks",
    "C" for group "tags") followed by the underlying id (the decimal track id,
    respectively the tag text), and the ids of the node list are pairwise
    distinct. *)
Theorem node_ids_prefixed_distinct :
  Forall (fun n =>
            (group n = "tracks"
             ∧ ∃ t, t ∈ bucket_tracks bucket ∧ id n = "T" +:+ pretty (trackId t))
            ∨ (group n = "tags"
               ∧ ∃ tag, tag ∈ bucket_tags bucket ∧ id n = "C" +:+ tag))
         (nodes bucket)
  ∧ NoDup (id <$> nodes bucket).
Proof.
  split.
  - apply Forall_forall. intros n [(t & Ht & _ & ->)|(tag & Htag & ->)]%elem_of_nodes.
    + left. split; [done|]. by exists t.
    + right. split; [done|]. by exists tag.
  - apply node_ids_NoDup; [apply bucket_track_ids_NoDup | apply bucket_tags_NoDup].
Qed.

(** C4.  Every produced edge goes from a track node to a tag node: its [from]
    starts with "T" and is the id of a node of group "tracks", its [to]
    starts with "C" and is the id of a node of group "tags", and it stems from
    a (track, tag) association of the dataset; conversely each association
    has exactly one edge in the edge list. *)
Theorem edges_track_to_tag :
  Forall (fun e =>
            (∃ s, from e = "T" +:+ s)
            ∧ (∃ n, n ∈ nodes bucket ∧ id n = from e ∧ group n = "tracks")
            ∧ (∃ s, to e = "C" +:+ s)
            ∧ (∃ n, n ∈ nodes bucket ∧ id n = to e ∧ group n = "tags")
            ∧ ∃ t tag, association bucket t tag
                ∧ e = {| from := "T" +:+ pretty (trackId t); to := "C" +:+ tag |})
         (edge_list bucket)
  ∧ ∀ t tag, association bucket t tag →
      filter (fun e => e = {| from := "T" +:+ pretty (trackId t); to := "C" +:+ tag |})
             (edge_list bucket)
      = [ {| from := "T" +:+ pretty (trackId t); to := "C" +:+ tag |} ].
Proof.
  split.
  - apply Forall_forall. intros e (t & tag & Hassoc & ->)%elem_of_edge_list.
    destruct (association_endpoints bucket t tag bucket_tags_closed Hassoc) as [Hf Ht].
    split_and!; simpl.
    + by eexists.
    + by exists (track_node t).
    + by eexists.
    + by exists (tag_node tag).
    + by exists t, tag.
  - intros t tag Hassoc.
    by apply (per_association_edge bucket t tag bucket_track_ids_NoDup bucket_tags_simple).
Qed.

Lemma edges_track_to_tag_witness :
  filter (fun e => e = {| from := "T" +:+ pretty 340187504%N; to := "C" +:+ "future" |})
         (edge_list bucket)
  = [ {| from := "T" +:+ pretty 340187504%N; to := "C" +:+ "future" |} ].
Proof.
  apply (proj2 edges_track_to_tag (mkTrack 340187504 (Some ["funky"; "future"]) None) "future").
  split.
  - apply (bool_decide_unpack _). vm_compute. exact I.
  - exists ["funky"; "future"]. split; [reflexivity|].
    apply (bool_decide_unpack _). vm_compute. exact I.
Defined.

(** Sizes of the lists built from the dataset, by evaluation. *)
Example nodes_bucket_length : length (nodes bucket) = 71.
Proof. vm_compute. reflexivity. Qed.

Example edge_list_bucket_length : length (edge_list bucket) = 148.
Proof. vm_compute. reflexivity. Qed.

Example nodes_bucket_first :
  head (nodes bucket) = Some {| id := "T344049175"; label := ""; group := "tracks" |}.
Proof. vm_compute. reflexivity. Qed.

Example edge_list_bucket_first :
  head (edge_list bucket) = Some {| from := "T344049175"; to := "Celectronic" |}.
Proof. vm_compute. reflexivity. Qed.

End TransformClaims.

(** ** Option defaults *)

Module DefaultsFacts.
Import Defaults.

Lemma num_or_omitted d : num_or None d = d.
Proof. done. Qed.

Lemma num_or_given n d : n ≠ 0%Z → num_or (Some n) d = n.
Proof. intros Hn. unfold num_or. by destruct (Z.eqb_spec n 0). Qed.

(** C5.  With [limit] omitted (options [{}], or no options at all), the
    constructor stores the default 10 in [this.limit] but hands the graph
    constructor the raw [options.limit], which is [undefined]: the default
    never reaches the graph. *)
Theorem omitted_limit_not_defaulted_for_graph :
  This.limit (this_of (Some Options.empty)) = 10%Z
  ∧ graph_limit_arg (Some Options.empty) = None
  ∧ This.limit (this_of None) = 10%Z
  ∧ graph_limit_arg None = None
  ∧ graph_limit_arg (Some Options.empty) ≠ Some (This.limit (this_of (Some Options.empty))).
Proof. by split_and!. Qed.

End DefaultsFacts.

(** ** Frame lemmas for world-passing computations *)

Module DrawingFacts.
Import Drawing.

Section with_collaborators.
Context {C : Collaborators}.

Lemma preserves_ret {X A} (proj : World → X) (a : A) : preserves proj (ret a).
Proof. by intros w. Qed.

Lemma preserves_throw {X A} (proj : World → X) e : preserves proj (@throw _ A e).
Proof. by intros w. Qed.

Lemma preserves_get {X} (proj : World → X) : preserves proj get.
Proof. by intros w. Qed.

Lemma preserves_modify {X} (proj : World → X) f :
  (∀ w, proj (f w) = proj w) → preserves proj (modify f).
Proof. intros Hf w. apply Hf. Qed.

Lemma preserves_bind {X A B} (proj : World → X) (m : M A) (k : A → M B) :
  preserves proj m → (∀ a, preserves proj (k a)) → preserves proj (bind m k).
Proof.
  intros Hm Hk w. unfold bind. specialize (Hm w).
  destruct (m w) as [[a|e] w']; simpl in *; [|done].
  by rewrite Hk.
Qed.

Lemma preserves_if {X A} (proj : World → X) (b : bool) (m1 m2 : M A) :
  preserves proj m1 → preserves proj m2 → preserves proj (if b then m1 else m2).
Proof. by destruct b. Qed.

Lemma preserves_forEach {X A} (proj : World → X) (f : A → M unit) l :
  (∀ x, preserves proj (f x)) → preserves proj (forEach f l).
Proof.
  intros Hf. induction l as [|x l IH]; simpl.
  - apply preserves_ret.
  - by apply preserves_bind.
Qed.

Lemma preserves_forEach_with {X A S} (proj : World → X) (f : S → A → M S) l s :
  (∀ s x, preserves proj (f s x)) → preserves proj (forEach_with f l s).
Proof.
  intros Hf. revert s. induction l as [|x l IH]; intros s; simpl.
  - apply preserves_ret.
  - by apply preserves_bind.
Qed.

(** What follows a computation does not matter for [proj] when it
    preserves [proj]. *)
Lemma bind_then_preserves {X A B} (proj : World → X) (m : M A) (k : A → M B) w :
  (∀ a, preserves proj (k a)) → proj (bind m k w).2 = proj (m w).2.
Proof.
  intros Hk. unfold bind. destruct (m w) as [[a|e] w']; simpl; [|done].
  apply Hk.
Qed.

Lemma preserves_deref {X} (proj : World → X) o : preserves proj (deref o).
Proof. intros w. unfold deref. by destruct (o ≫= _). Qed.

Lemma preserves_match_option {X A B} (proj : World → X) (o : option B)
    (m1 : B → M A) (m2 : M A) :
  (∀ b, preserves proj (m1 b)) → preserves proj m2 →
  preserves proj (match o with Some b => m1 b | None => m2 end).
Proof. by destruct o. Qed.

Lemma preserves_new_Node {X} (proj : World → X) i :
  (∀ f w, proj (upd_heap f w) = proj w) → preserves proj (new_Node i).
Proof. intros H w. apply H. Qed.

Lemma preserves_addNode {X} (proj : World → X) r :
  (∀ fc fg w, proj (upd_calls fc (upd_graph fg w)) = proj w) →
  preserves proj (addNode r).
Proof.
  intros H w. unfold addNode.
  destruct (Graph_addNode (graph w) (heap w) r) as [added g]. simpl.
  apply H.
Qed.

Lemma preserves_addEdge {X} (proj : World → X) source target :
  (∀ fc fg w, proj (upd_calls fc (upd_graph fg w)) = proj w) →
  preserves proj (addEdge source target).
Proof.
  intros H w. unfold addEdge.
  destruct (Graph_addEdge (graph w) (heap w) source target) as [added g]. simpl.
  apply H.
Qed.

Lemma alter_keeps_ids (f : NodeObj → NodeObj) r (h : list NodeObj) :
  (∀ n, node_id (f n) = node_id n) → node_id <$> alter f r h = node_id <$> h.
Proof.
  intros Hf. revert r. induction h as [|n h IH]; intros [|r]; simpl; [done..| |].
  - by rewrite Hf.
  - f_equal. apply IH.
Qed.

Lemma preserves_write_shape r f :
  (∀ n, node_id (f n) = node_id n) → preserves graph_shape (write r f).
Proof.
  intros Hf w. unfold graph_shape, write, modify. simpl.
  by rewrite alter_keeps_ids.
Qed.

End with_collaborators.

(** Decomposes a [preserves] goal along the structure of the computation;
    updates of other fields are discharged by evaluation. *)
Ltac frame_step :=
  first
    [ progress intros
    | apply preserves_ret
    | apply preserves_throw
    | apply preserves_get
    | apply preserves_deref
    | apply preserves_bind
    | apply preserves_if
    | apply preserves_match_option
    | apply preserves_forEach
    | apply preserves_forEach_with
    | (apply preserves_modify; intros ?; reflexivity)
    | (apply preserves_write_shape; intros ?; reflexivity)
    | (apply preserves_new_Node; intros ? ?; reflexivity)
    | (apply preserves_addNode; intros ? ? ?; reflexivity)
    | (apply preserves_addEdge; intros ? ? ?; reflexivity)
    | match goal with
      | |- preserves _ (match ?x with _ => _ end) => destruct x
      end
    | progress unfold show_label, hide_label, write, scene_add, scene_remove,
        draw_object_position, set_info, appendChild, log, selected, drawNode,
        drawEdge, node_step, edge_step, populate ].

Ltac frame := repeat frame_step.

Section with_collaborators.
Context {C : Collaborators}.

(** *** The label loops of [render] touch the store and the scene only *)

Lemma label_loops_calls w :
  preserves calls
    (if This.show_labels (that w)
     then forEach show_label (Graph_nodes (graph w))
     else forEach hide_label (Graph_nodes (graph w))).
Proof. frame. Qed.

Lemma label_loops_info_text w :
  preserves info_text
    (if This.show_labels (that w)
     then forEach show_label (Graph_nodes (graph w))
     else forEach hide_label (Graph_nodes (graph w))).
Proof. frame. Qed.

Lemma label_loops_document w :
  preserves document
    (if This.show_labels (that w)
     then forEach show_label (Graph_nodes (graph w))
     else forEach hide_label (Graph_nodes (graph w))).
Proof. frame. Qed.

Lemma label_loops_that w :
  preserves that
    (if This.show_labels (that w)
     then forEach show_label (Graph_nodes (graph w))
     else forEach hide_label (Graph_nodes (graph w))).
Proof. frame. Qed.

Lemma label_loops_graph w :
  preserves graph
    (if This.show_labels (that w)
     then forEach show_label (Graph_nodes (graph w))
     else forEach hide_label (Graph_nodes (graph w))).
Proof. frame. Qed.

Lemma label_loops_graph_layout w :
  preserves graph_layout
    (if This.show_labels (that w)
     then forEach show_label (Graph_nodes (graph w))
     else forEach hide_label (Graph_nodes (graph w))).
Proof. frame. Qed.

(** After [poll_layout], [render] changes none of the fields below. *)
Lemma render_after_poll {X} (proj : World → X) w :
  (∀ w', preserves proj
           (if This.show_labels (that w')
            then forEach show_label (Graph_nodes (graph w'))
            else forEach hide_label (Graph_nodes (graph w')))) →
  proj (render w).2 = proj (poll_layout w).2.
Proof.
  intros H. unfold render. apply bind_then_preserves. intros _.
  apply preserves_bind; [apply preserves_get | done].
Qed.

Lemma get_set_prop k v o : get_prop k (set_prop k v o) = Some v.
Proof.
  induction o as [|[k' v'] o IH]; simpl.
  - by rewrite decide_True.
  - destruct (decide (k' = k)); simpl.
    + by rewrite decide_True.
    + by rewrite decide_False.
Qed.

(** What [poll_layout] does when the layout exists. *)
Lemma poll_layout_spec w l :
  graph_layout w = Some l →
  calls (poll_layout w).2
    = calls w ++ (if Layout_finished l then [] else [CallGenerate])
  ∧ info_text (poll_layout w).2
    = set_prop "calc" (if Layout_finished l then "" else calculating) (info_text w)
  ∧ (poll_layout w).1 = Returned tt.
Proof.
  intros Hl. unfold poll_layout, bind, get. rewrite Hl.
  destruct (Layout_finished l); simpl.
  - by rewrite app_nil_r.
  - unfold generate. simpl. rewrite Hl.
    by destruct (Layout_generate l (graph w)).
Qed.

(** *** No operation after construction changes the shape of the graph *)

Lemma generate_shape : layout_keeps_graph C → preserves graph_shape generate.
Proof.
  intros Hkeep w. unfold generate, graph_shape.
  destruct (graph_layout w) as [l|]; [|done].
  destruct (Hkeep l (graph w)) as [[Hn He] _].
  destruct (Layout_generate l (graph w)) as [l' g']. simpl in *. by rewrite Hn, He.
Qed.

Lemma stop_calculating_shape :
  layout_keeps_graph C → preserves graph_shape stop_calculating.
Proof.
  intros Hkeep w. unfold stop_calculating, graph_shape.
  destruct (graph_layout w) as [l|]; [|done].
  destruct (Hkeep l (graph w)) as [_ [Hn He]].
  destruct (Layout_stop_calculating l (graph w)) as [l' g']. simpl in *.
  by rewrite Hn, He.
Qed.

Lemma poll_layout_shape : layout_keeps_graph C → preserves graph_shape poll_layout.
Proof.
  intros Hkeep. unfold poll_layout. apply preserves_bind; [frame|]. intros w.
  destruct (graph_layout w) as [l|]; [|frame].
  apply preserves_if; [|frame].
  apply preserves_bind; [frame|]. intros _. by apply generate_shape.
Qed.

Lemma render_shape : layout_keeps_graph C → preserves graph_shape render.
Proof.
  intros Hkeep. unfold render.
  apply preserves_bind; [by apply poll_layout_shape|]. frame.
Qed.

Lemma printInfo_shape : preserves graph_shape printInfo.
Proof. intros w. unfold printInfo. by destruct (set_innerHTML _ _ _). Qed.

Lemma animate_shape changed : layout_keeps_graph C → preserves graph_shape (animate changed).
Proof.
  intros Hkeep. unfold animate.
  apply preserves_bind; [destruct changed; [by apply render_shape | frame]|].
  intros _. apply preserves_bind; [by apply render_shape|].
  intros _. apply preserves_bind; [frame|].
  intros w. destruct (This.show_info (that w)); [apply printInfo_shape | frame].
Qed.

Lemma run_op_shape op : layout_keeps_graph C → preserves graph_shape (run_op op).
Proof.
  intros Hkeep. destruct op; simpl.
  - by apply animate_shape.
  - by apply render_shape.
  - apply printInfo_shape.
  - by apply stop_calculating_shape.
  - frame.
Qed.

Lemma run_ops_shape ops w :
  layout_keeps_graph C → graph_shape (run_ops ops w) = graph_shape w.
Proof.
  intros Hkeep. revert w. induction ops as [|op ops IH]; intros w; [done|].
  change (run_ops (op :: ops) w) with (run_ops ops (run_op op w).2).
  rewrite IH. by apply run_op_shape.
Qed.

End with_collaborators.

(** *** The text [printInfo] builds *)

Section info_box.
Context {C : Collaborators}.

Lemma string_app_nil_r (s : string) : s +:+ "" = s.
Proof.
  induction s as [|c s IH]; [done|].
  change (String c (s +:+ "") = String c s). by f_equal.
Qed.

Lemma string_app_assoc (s1 s2 s3 : string) : (s1 +:+ s2) +:+ s3 = s1 +:+ s2 +:+ s3.
Proof.
  induction s1 as [|c s1 IH]; [done|].
  change (String c ((s1 +:+ s2) +:+ s3) = String c (s1 +:+ s2 +:+ s3)). by f_equal.
Qed.

Lemma string_app_nonempty_l (s1 s2 : string) : s1 ≠ "" → s1 +:+ s2 ≠ "".
Proof. by destruct s1. Qed.

Lemma string_app_nonempty_r (s1 s2 : string) : s2 ≠ "" → s1 +:+ s2 ≠ "".
Proof. by destruct s1, s2. Qed.

Lemma join2_empty_l b : join2 "" b = b.
Proof. done. Qed.

Lemma join2_empty_r a : join2 a "" = a.
Proof. unfold join2. by repeat case_decide. Qed.

Lemma join2_nonempty a b : a ≠ "" → b ≠ "" → join2 a b = a +:+ " - " +:+ b.
Proof. intros Ha Hb. unfold join2. by rewrite !decide_False. Qed.

Lemma join2_assoc a b c : join2 (join2 a b) c = join2 a (join2 b c).
Proof.
  destruct (decide (a = "")) as [->|Ha]; [by rewrite !join2_empty_l|].
  destruct (decide (b = "")) as [->|Hb]; [by rewrite join2_empty_l, join2_empty_r|].
  destruct (decide (c = "")) as [->|Hc]; [by rewrite !join2_empty_r|].
  rewrite (join2_nonempty a b), (join2_nonempty b c) by done.
  rewrite !join2_nonempty; [|done|by apply string_app_nonempty_l|by apply string_app_nonempty_l|done].
  by rewrite !string_app_assoc.
Qed.

Lemma info_step_join2 str v : info_step str v = join2 str v.
Proof.
  unfold info_step.
  destruct (decide (str = "")) as [->|Hs].
  - by rewrite decide_False by (by intros [? _]).
  - destruct (decide (v = "")) as [->|Hv].
    + rewrite decide_False by (by intros [_ ?]).
      by rewrite string_app_nil_r, join2_empty_r.
    + rewrite decide_True by done.
      by rewrite join2_nonempty, string_app_assoc.
Qed.

Lemma concat_cons_nonempty sep (v : string) (l : list string) :
  v ≠ "" → String.concat sep (v :: l) ≠ "".
Proof.
  intros Hv. destruct l as [|x l]; [done|].
  change (v +:+ sep +:+ String.concat sep (x :: l) ≠ "").
  by apply string_app_nonempty_l.
Qed.

(** The separator-joined text of the non-empty values, one value more. *)
Lemma joined_cons (v : string) (vals : list string) :
  String.concat " - " (filter (fun s => s ≠ "") (v :: vals))
  = join2 v (String.concat " - " (filter (fun s => s ≠ "") vals)).
Proof.
  destruct (decide (v = "")) as [->|Hv].
  - by rewrite filter_cons_False by (by intros ?).
  - rewrite filter_cons_True by done.
    destruct (filter (fun s => s ≠ "") vals) as [|x rest] eqn:E.
    + by rewrite join2_empty_r.
    + assert (x ≠ "") as Hx.
      { assert (x ∈ filter (fun s => s ≠ "") vals) as Hin by (rewrite E; left).
        by apply list_elem_of_filter in Hin as [? _]. }
      rewrite join2_nonempty; [done|done|by apply concat_cons_nonempty].
Qed.

(** The loop of [printInfo], started from any accumulated string. *)
Lemma info_loop_spec (info : list (string * string)) (acc : string) :
  fold_left (fun str kv => info_step str kv.2) info acc
  = join2 acc (String.concat " - " (filter (fun s => s ≠ "") info.*2)).
Proof.
  revert acc. induction info as [|[k v] info IH]; intros acc.
  - by rewrite join2_empty_r.
  - rewrite fmap_cons, joined_cons, <- join2_assoc.
    change ((k, v).2) with v. rewrite <- (info_step_join2 acc v).
    apply IH.
Qed.

Lemma info_string_join (info : list (string * string)) :
  info_string info = String.concat " - " (filter (fun s => s ≠ "") info.*2).
Proof. unfold info_string. by rewrite info_loop_spec. Qed.

(** *** The page *)

Lemma getElementById_cons i e doc :
  getElementById i (e :: doc)
  = if decide (elem_id e = Some i) then Some e else getElementById i doc.
Proof. unfold getElementById. rewrite filter_cons. by case_decide. Qed.

Lemma getElementById_app i d1 d2 :
  getElementById i (d1 ++ d2)
  = match getElementById i d1 with
    | Some e => Some e
    | None => getElementById i d2
    end.
Proof.
  induction d1 as [|e d1 IH]; [done|].
  rewrite <- app_comm_cons, !getElementById_cons. by case_decide.
Qed.

Lemma getElementById_absent i doc :
  Forall (fun e => elem_id e ≠ Some i) doc → getElementById i doc = None.
Proof.
  induction 1 as [|e doc He _ IH]; [done|].
  by rewrite getElementById_cons, decide_False.
Qed.

(** Which element is found depends on the tag names and ids only. *)
Lemma getElementById_skeleton i d1 d2 :
  skeleton d1 = skeleton d2 →
  (fun e => (tagName e, elem_id e)) <$> getElementById i d1
  = (fun e => (tagName e, elem_id e)) <$> getElementById i d2.
Proof.
  revert d2. induction d1 as [|e1 d1 IH]; intros [|e2 d2]; try done.
  unfold skeleton. rewrite !fmap_cons. intros [= Ht Hi Hrest].
  rewrite !getElementById_cons, Hi.
  case_decide; simpl; [by rewrite Ht, Hi | by apply IH].
Qed.

Lemma set_innerHTML_found i s doc e :
  getElementById i doc = Some e →
  ∃ doc', set_innerHTML i s doc = Some doc'
          ∧ skeleton doc' = skeleton doc
          ∧ getElementById i doc' = Some (mkElement (tagName e) (elem_id e) s).
Proof.
  induction doc as [|e0 doc IH]; [done|].
  rewrite getElementById_cons. simpl. case_decide as Hid.
  - intros [= ->]. eexists. split; [done|]. split; [done|].
    rewrite getElementById_cons. simpl. by rewrite decide_True.
  - intros (doc' & -> & Hsk & Hget)%IH. eexists. split; [done|].
    split.
    + unfold skeleton in *. rewrite !fmap_cons. by f_equal.
    + by rewrite getElementById_cons, decide_False.
Qed.

Lemma set_innerHTML_skeleton i s doc doc' :
  set_innerHTML i s doc = Some doc' → skeleton doc' = skeleton doc.
Proof.
  revert doc'. induction doc as [|e doc IH]; intros doc'; [done|].
  simpl. case_decide.
  - by intros [= <-].
  - destruct (set_innerHTML i s doc) as [d|]; [|done].
    intros [= <-]. unfold skeleton in *. rewrite !fmap_cons. f_equal. by apply IH.
Qed.

(** *** [init] *)

Lemma init_spec w :
  (init w).1 = Returned tt
  ∧ that (init w).2 = that w
  ∧ document (init w).2
    = document w ++ [renderer_domElement]
      ++ (if This.show_stats (that w) then [stats_domElement] else [])
      ++ (if This.show_info (that w) then [graph_info_div] else []).
Proof.
  unfold init, bind, modify, appendChild, get, ret. simpl.
  destruct (This.show_stats (that w)), (This.show_info (that w)); simpl;
    (split_and!; [done|done|by rewrite <- ?app_assoc]).
Qed.

(** *** Nothing but [init] and [printInfo] touches the page, and [printInfo]
        keeps its skeleton *)

Lemma start_layout_page : preserves page_shape start_layout.
Proof.
  intros w. unfold start_layout, modify. simpl.
  by destruct (Layout_init _ _).
Qed.

Lemma generate_page : preserves page_shape generate.
Proof.
  intros w. unfold generate. destruct (graph_layout w); [|done].
  by destruct (Layout_generate _ _).
Qed.

Lemma stop_calculating_page : preserves page_shape stop_calculating.
Proof.
  intros w. unfold stop_calculating. destruct (graph_layout w); [|done].
  by destruct (Layout_stop_calculating _ _).
Qed.

Lemma printInfo_page : preserves page_shape printInfo.
Proof.
  intros w. unfold printInfo.
  destruct (set_innerHTML _ _ _) as [doc'|] eqn:E; [|done].
  unfold page_shape. simpl. by rewrite (set_innerHTML_skeleton _ _ _ _ E).
Qed.

Lemma populate_page nodes edges : preserves page_shape (populate nodes edges).
Proof. frame. Qed.

Lemma createGraph_page : preserves page_shape createGraph.
Proof.
  unfold createGraph.
  apply preserves_bind; [apply populate_page|]. intros _.
  repeat first [ apply start_layout_page | frame_step ].
Qed.

Lemma render_page : preserves page_shape render.
Proof.
  unfold render, poll_layout.
  repeat first [ apply generate_page | frame_step ].
Qed.

Lemma animate_page changed : preserves page_shape (animate changed).
Proof.
  unfold animate.
  repeat first [ apply render_page | apply printInfo_page | frame_step ].
Qed.

Lemma run_ops_page ops w : page_shape (run_ops ops w) = page_shape w.
Proof.
  revert w. induction ops as [|op ops IH]; intros w; [done|].
  change (run_ops (op :: ops) w) with (run_ops ops (run_op op w).2).
  rewrite IH. destruct op; simpl.
  - apply animate_page.
  - apply render_page.
  - apply printInfo_page.
  - apply stop_calculating_page.
  - frame.
Qed.

Lemma construct_page w : page_shape (construct w).2 = page_shape (init w).2.
Proof. unfold construct. apply bind_then_preserves. intros _. apply createGraph_page. Qed.

(** A frame whose rendering returns ends in [printInfo]. *)
Lemma animate_after_render (changed : bool) w wr :
  ((if changed then render else ret tt) ;;; render) w = (Returned tt, wr) →
  animate changed w
  = (if This.show_info (that wr) then printInfo wr else (Returned tt, wr))
  ∧ page_shape wr = page_shape w.
Proof.
  intros H. split.
  - unfold animate, bind in *.
    destruct ((if changed then render else ret tt) w) as [[[]|e] w1]; [|done].
    destruct (render w1) as [[[]|e] w2]; [|done].
    injection H as ->. simpl. by destruct (This.show_info (that wr)).
  - assert (preserves page_shape ((if changed then render else ret tt) ;;; render)) as Hp
      by (repeat first [ apply render_page | frame_step ]).
    specialize (Hp w). by rewrite H in Hp.
Qed.

End info_box.

(** *** The population loops of [createGraph] *)

Section populate.
Context {C : Collaborators}.

Lemma alter_fresh {A} (f : A → A) (l : list A) (x : A) :
  alter f (length l) (l ++ [x]) = l ++ [f x].
Proof. induction l as [|y l IH]; simpl; [done|]. f_equal. apply IH. Qed.

Lemma lookup_fresh {A} (l : list A) (x : A) : (l ++ [x]) !! length l = Some x.
Proof. by apply list_lookup_middle. Qed.

(** One round of the node loop: it returns, files the new object under the
    id of the description, and draws exactly when [addNode] said yes. *)
Lemma node_step_spec gvn node w :
  let r := length (heap w) in
  let added := (Graph_addNode (graph w) (heap w ++ [fresh_node node]) r).1 in
  ∃ w', node_step gvn node w = (Returned (<[id node := r]> gvn), w')
        ∧ calls w'
          = calls w ++ CallAddNode r added :: (if added then [CallDrawNode r] else [])
        ∧ node_id <$> heap w' = (node_id <$> heap w) ++ [id node]
        ∧ (added = false → scene w' = scene w ∧ geometries w' = geometries w).
Proof.
  intros r added. subst r added. unfold fresh_node.
  unfold node_step, drawNode, bind, new_Node, write, modify, addNode, deref, get, log,
    scene_add, ret, upd_heap, upd_calls, upd_graph, upd_scene.
  simpl.
  destruct (decide (label node = ""));
    repeat (rewrite ?alter_fresh, ?lookup_fresh; simpl);
    (destruct (Graph_addNode _ _ _) as [[] g];
     repeat (rewrite ?alter_fresh, ?lookup_fresh; simpl);
     [ destruct (This.show_labels (that w));
       repeat (rewrite ?alter_fresh, ?lookup_fresh; simpl) | ]);
    (eexists; split; [reflexivity|]; simpl;
     rewrite fmap_app, <- ?app_assoc; done).
Qed.

Lemma drawEdge_calls source target w :
  calls (drawEdge source target w).2 = calls w ++ [CallDrawEdge source target].
Proof.
  unfold drawEdge.
  rewrite (bind_then_preserves calls) by (intros; frame). done.
Qed.

Lemma edge_step_heap gvn edge : preserves heap (edge_step gvn edge).
Proof. frame. Qed.

(** One round of the edge loop. *)
Lemma edge_step_spec gvn edge w :
  let source := gvn !! from edge in
  let target := gvn !! to edge in
  let added := (Graph_addEdge (graph w) (heap w) source target).1 in
  calls (edge_step gvn edge w).2
    = calls w ++ CallAddEdge source target added
                 :: (if added then [CallDrawEdge source target] else [])
  ∧ (added = false →
     (edge_step gvn edge w).1 = Returned tt
     ∧ scene (edge_step gvn edge w).2 = scene w
     ∧ geometries (edge_step gvn edge w).2 = geometries w).
Proof.
  intros source target added. subst source target added.
  unfold edge_step, bind, addEdge.
  destruct (Graph_addEdge _ _ _ _) as [[] g]; simpl.
  - rewrite drawEdge_calls. simpl. by rewrite <- app_assoc.
  - done.
Qed.

Lemma node_loop_spec nodes gvn w :
  graphVisNodes_ok gvn w →
  ∃ gvn' w' new,
    forEach_with node_step nodes gvn w = (Returned gvn', w')
    ∧ calls w' = calls w ++ new ∧ Forall is_node_call new
    ∧ graphVisNodes_ok gvn' w'
    ∧ (∀ n, n ∈ nodes → is_Some (gvn' !! id n))
    ∧ (∀ i, is_Some (gvn !! i) → is_Some (gvn' !! i)).
Proof.
  revert gvn w. induction nodes as [|node nodes IH]; intros gvn w Hok.
  - exists gvn, w, []. rewrite app_nil_r.
    split_and!; [done|done|constructor|done| |done].
    by intros n ?%elem_of_nil.
  - destruct (node_step_spec gvn node w) as (w1 & Hstep & Hcalls & Hids & _).
    set (r := length (heap w)) in *.
    set (added := (Graph_addNode _ _ _).1) in *.
    assert (graphVisNodes_ok (<[id node := r]> gvn) w1) as Hok1.
    { intros i r0. rewrite Hids. destruct (decide (id node = i)) as [<-|Hne].
      - rewrite lookup_insert_eq. intros [= <-].
        unfold r. rewrite <- (length_fmap node_id). apply lookup_fresh.
      - rewrite lookup_insert_ne by done. intros Hi%Hok.
        by apply lookup_app_l_Some. }
    destruct (IH _ _ Hok1) as (gvn' & w' & new & Hloop & Hcalls' & Hnew & Hok' & Hall & Hmono).
    exists gvn', w', (CallAddNode r added :: (if added then [CallDrawNode r] else []) ++ new).
    split_and!.
    + simpl. unfold bind. by rewrite Hstep.
    + rewrite Hcalls', Hcalls, <- app_assoc. done.
    + constructor; [done|]. apply Forall_app. split; [|done].
      destruct added; repeat constructor.
    + done.
    + intros n [->|Hn]%elem_of_cons; [|by apply Hall].
      apply Hmono. rewrite lookup_insert_eq. by eexists.
    + intros i Hi. apply Hmono.
      destruct (decide (id node = i)) as [<-|Hne].
      * rewrite lookup_insert_eq. by eexists.
      * by rewrite lookup_insert_ne.
Qed.

Lemma edge_loop_spec gvn edges w :
  ∃ new,
    calls (forEach (edge_step gvn) edges w).2 = calls w ++ new
    ∧ Forall (fun c => ∃ e, e ∈ edges ∧ is_edge_call_of gvn e c) new
    ∧ heap (forEach (edge_step gvn) edges w).2 = heap w.
Proof.
  revert w. induction edges as [|edge edges IH]; intros w.
  - exists []. by rewrite app_nil_r.
  - destruct (edge_step_spec gvn edge w) as [Hcalls _].
    pose proof (edge_step_heap gvn edge w) as Hheap.
    set (step_calls := CallAddEdge _ _ _ :: _) in Hcalls.
    assert (Forall (fun c => ∃ e, e ∈ edge :: edges ∧ is_edge_call_of gvn e c) step_calls)
      as Hstep.
    { unfold step_calls. constructor.
      - exists edge. split; [left|]. left. by eexists.
      - destruct (Graph_addEdge _ _ _ _).1; constructor; [|constructor].
        exists edge. split; [left|]. by right. }
    simpl. unfold bind.
    destruct (edge_step gvn edge w) as [[[]|err] w1]; simpl in *.
    + destruct (IH w1) as (new & Hcalls' & Hnew & Hheap').
      exists (step_calls ++ new). split_and!.
      * by rewrite Hcalls', Hcalls, <- app_assoc.
      * apply Forall_app. split; [done|].
        eapply Forall_impl; [exact Hnew|]. intros c (e & He & Hc).
        exists e. split; [by right|done].
      * by rewrite Hheap'.
    + by exists step_calls.
Qed.

(** Every [addEdge] call of the population gets two node objects, provided
    each endpoint of each edge description is the id of a node description. *)
Lemma populate_addEdge_defined nodes edges w :
  (∀ e, e ∈ edges → from e ∈ id <$> nodes ∧ to e ∈ id <$> nodes) →
  ∃ new,
    calls (populate nodes edges w).2 = calls w ++ new
    ∧ Forall (addEdge_call_defined edges (heap (populate nodes edges w).2)) new.
Proof.
  intros Hends.
  destruct (node_loop_spec nodes ∅ w) as (gvn & w1 & new1 & Hloop & Hcalls1 & Hnew1 & Hok & Hall & _).
  { intros i r. by rewrite lookup_empty. }
  destruct (edge_loop_spec gvn edges w1) as (new2 & Hcalls2 & Hnew2 & Hheap).
  assert (populate nodes edges w = forEach (edge_step gvn) edges w1) as ->
    by (unfold populate, bind; by rewrite Hloop).
  exists (new1 ++ new2). split; [by rewrite Hcalls2, Hcalls1, <- app_assoc|].
  rewrite Hheap. apply Forall_app. split.
  - eapply Forall_impl; [exact Hnew1|]. by intros [].
  - eapply Forall_impl; [exact Hnew2|].
    intros c (e & He & [[added ->] | ->]); [|done].
    destruct (Hends e He) as [(nf & Hf & Hnf)%list_elem_of_fmap (nt & Ht & Hnt)%list_elem_of_fmap].
    destruct (Hall nf Hnf) as [rs Hrs]. destruct (Hall nt Hnt) as [rt Hrt].
    rewrite <- Hf in Hrs. rewrite <- Ht in Hrt.
    pose proof (Hok _ _ Hrs) as Hs. pose proof (Hok _ _ Hrt) as Ht'.
    apply list_lookup_fmap_Some_1 in Hs as (ns & Hns & Hs).
    apply list_lookup_fmap_Some_1 in Ht' as (nt' & Hnt' & Ht').
    simpl. rewrite Hrs, Hrt. exists e, rs, rt, ns, nt'. done.
Qed.

End populate.

Module PopulateClaims.
Section with_collaborators.
Context {C : Collaborators}.

(** C6.  A round of the node loop makes the [addNode] call and, only when it
    returned a truthy value, the [drawNode] call; a round of the edge loop
    does the same with [addEdge] and [drawEdge].  When the add returned a
    falsy value the round returns normally and leaves the scene and the line
    geometries as they were. *)
Theorem falsy_add_skips_draw :
  (∀ graphVisNodes node w,
     let r := length (heap w) in
     let added := (Graph_addNode (graph w) (heap w ++ [fresh_node node]) r).1 in
     let w' := (node_step graphVisNodes node w).2 in
     calls w' = calls w ++ CallAddNode r added :: (if added then [CallDrawNode r] else [])
     ∧ (node_step graphVisNodes node w).1 = Returned (<[id node := r]> graphVisNodes)
     ∧ (added = false → scene w' = scene w ∧ geometries w' = geometries w))
  ∧ (∀ graphVisNodes edge w,
       let source := graphVisNodes !! from edge in
       let target := graphVisNodes !! to edge in
       let added := (Graph_addEdge (graph w) (heap w) source target).1 in
       let w' := (edge_step graphVisNodes edge w).2 in
       calls w' = calls w ++ CallAddEdge source target added
                    :: (if added then [CallDrawEdge source target] else [])
       ∧ (added = false →
          (edge_step graphVisNodes edge w).1 = Returned tt
          ∧ scene w' = scene w ∧ geometries w' = geometries w)).
Proof.
  split.
  - intros gvn node w r added w'.
    destruct (node_step_spec gvn node w) as (w1 & Hstep & Hcalls & _ & Hskip).
    unfold w'. rewrite Hstep. done.
  - intros gvn edge w. apply edge_step_spec.
Qed.

(** C10.  In the hard-coded dataset every tag of a track is listed in
    [bucket.tags], and so, whatever the graph collaborator answers, every
    [graph.addEdge] call of [createGraph]'s population gets two node objects:
    the ones filed in [graphVisNodes] under the edge's [from] and [to]. *)
Theorem addEdge_endpoints_defined (w : World) :
  Expected.tags_closed Dataset.bucket
  ∧ ∃ new,
      let w' := (populate (Transform.nodes Dataset.bucket)
                          (Transform.edge_list Dataset.bucket) w).2 in
      calls w' = calls w ++ new
      ∧ Forall (fun c =>
                  match c with
                  | CallAddEdge source target _ =>
                      ∃ e rs rt ns nt,
                        e ∈ Transform.edge_list Dataset.bucket
                        ∧ source = Some rs ∧ target = Some rt
                        ∧ heap w' !! rs = Some ns ∧ node_id ns = from e
                        ∧ heap w' !! rt = Some nt ∧ node_id nt = to e
                  | _ => True
                  end) new.
Proof.
  split; [apply DatasetFacts.bucket_tags_closed|].
  apply populate_addEdge_defined. intros e He.
  by apply TransformFacts.edge_endpoint_ids; [apply DatasetFacts.bucket_tags_closed|].
Qed.

End with_collaborators.

Lemma falsy_add_skips_draw_witness :
  let w := Standin.constructed in
  let node := {| id := "Cchill"; label := "chill"; group := "tags" |} in
  let edge := {| from := "T344049175"; to := "Celectronic" |} in
  let gvn : gmap string ref := {[ "T344049175" := 0; "Celectronic" := 58 ]} in
  ((Graph_addNode (graph w) (heap w ++ [fresh_node node]) (length (heap w))).1 = false
   ∧ scene (node_step ∅ node w).2 = scene w
   ∧ geometries (node_step ∅ node w).2 = geometries w)
  ∧ ((Graph_addEdge (graph w) (heap w) (gvn !! from edge) (gvn !! to edge)).1 = false
     ∧ (edge_step gvn edge w).1 = Returned tt
     ∧ scene (edge_step gvn edge w).2 = scene w
     ∧ geometries (edge_step gvn edge w).2 = geometries w).
Proof.
  intros w node edge gvn.
  assert ((Graph_addNode (graph w) (heap w ++ [fresh_node node]) (length (heap w))).1
          = false) as Hnode by (vm_compute; reflexivity).
  assert ((Graph_addEdge (graph w) (heap w) (gvn !! from edge) (gvn !! to edge)).1
          = false) as Hedge by (vm_compute; reflexivity).
  split.
  - split; [exact Hnode|].
    exact (proj2 (proj2 (proj1 (falsy_add_skips_draw (C := Standin.standin)) ∅ node w))
             Hnode).
  - split; [exact Hedge|].
    exact (proj2 (proj2 (falsy_add_skips_draw (C := Standin.standin)) gvn edge w) Hedge).
Defined.

(** The population of the stand-in graph from the dataset: all 71 nodes and
    all 148 edges are added and drawn, and no [addEdge] call has an undefined
    argument. *)
Example standin_population :
  let w := (populate (Transform.nodes Dataset.bucket)
                     (Transform.edge_list Dataset.bucket) Standin.example_world) in
  w.1 = Returned tt
  ∧ length (filter is_drawNode (calls w.2)) = 71
  ∧ length (filter is_addEdge (calls w.2)) = 148
  ∧ length (filter is_addEdge_of_nodes (calls w.2)) = 148
  ∧ length (filter is_drawEdge (calls w.2)) = 148
  ∧ length (calls w.2) = 438.
Proof. vm_compute. done. Qed.

(** With the stand-in graph capped at 10 nodes the skipped [drawNode] calls
    are silent, but the first edge that reaches an undrawn node object makes
    [drawEdge] throw. *)
Example standin_capped_population :
  let options := Options.mk None None None None None None (Some 10%Z) None None in
  let w := populate (Transform.nodes Dataset.bucket)
                    (Transform.edge_list Dataset.bucket)
                    (world0 (C := Standin.standin) (Some options) []) in
  w.1 = Thrown TypeError
  ∧ length (filter is_drawNode (calls w.2)) = 10
  ∧ last (calls w.2) = Some (CallDrawEdge (Some 0) (Some 58)).
Proof. vm_compute. done. Qed.

End PopulateClaims.

Module RenderClaims.
Section with_collaborators.
Context {C : Collaborators}.

(** C9.  A render step on a graph whose layout is set calls
    [graph.layout.generate()] exactly once when [graph.layout.finished] is
    false and not at all when it is true, and leaves [info_text.calc] at the
    calculating message in the first case and at the empty string in the
    second. *)
Theorem render_polls_layout (w : World) (l : Layout) :
  graph_layout w = Some l →
  calls (render w).2 = calls w ++ (if Layout_finished l then [] else [CallGenerate])
  ∧ get_prop "calc" (info_text (render w).2)
    = Some (if Layout_finished l then "" else calculating).
Proof.
  intros Hl. destruct (poll_layout_spec w l Hl) as (Hcalls & Hinfo & _). split.
  - rewrite (render_after_poll calls) by apply label_loops_calls. done.
  - rewrite (render_after_poll info_text) by apply label_loops_info_text.
    rewrite Hinfo. apply get_set_prop.
Qed.

(** C7.  Whatever sequence of [animate], [render], [printInfo],
    [stop_calculating] and selection callbacks runs after construction, and
    whether or not some of them throw, the graph has the same nodes and the
    same edges afterwards, and every node object keeps its id, as long as
    the layout collaborator itself adds or removes none. *)
Theorem graph_fixed_after_construction (ops : list Op) (w : World) :
  layout_keeps_graph C →
  Graph_nodes (graph (run_ops ops w)) = Graph_nodes (graph w)
  ∧ Graph_edges (graph (run_ops ops w)) = Graph_edges (graph w)
  ∧ node_id <$> heap (run_ops ops w) = node_id <$> heap w.
Proof.
  intros Hkeep. pose proof (run_ops_shape ops w Hkeep) as H.
  unfold graph_shape in H. by injection H as -> -> ->.
Qed.

(** C8, as amended.  When the [showInfo] option is set, [init] appends a
    [div] with id "graph-info" as the last element of the page, and every
    later animation frame whose rendering returns ends with the first element
    of the page that carries that id holding the values of [info_text], in
    key order, empty values left out and " - " between the others; when no
    other element of the page carries the id, that element is the [div] of
    [init]. *)
Theorem info_box_every_frame (options : Options.t) (page : list Element)
    (ops : list Op) (changed : bool) (wr : World) :
  Options.showInfo options = Some true →
  let w0 := world0 (Some options) page in
  let w := run_ops ops (construct w0).2 in
  ((if changed then render else ret tt) ;;; render) w = (Returned tt, wr) →
  let text :=
    String.concat " - " (filter (fun s => s ≠ "") (info_text (animate changed w).2).*2) in
  document (init w0).2
    = page ++ [renderer_domElement]
      ++ (if This.show_stats (that w0) then [stats_domElement] else [])
      ++ [mkElement "div" (Some "graph-info") ""]
  ∧ (animate changed w).1 = Returned tt
  ∧ innerHTML <$> getElementById "graph-info" (document (animate changed w).2)
    = Some text
  ∧ (Forall (fun e => elem_id e ≠ Some "graph-info")
            (page ++ [renderer_domElement; stats_domElement]) →
     getElementById "graph-info" (document (animate changed w).2)
     = Some (mkElement "div" (Some "graph-info") text)).
Proof.
  intros Hopt w0 w Hr text.
  destruct (init_spec w0) as (_ & Hthat & Hdoc).
  assert (This.show_info (that w0) = true) as Hinfo
    by (unfold w0, world0, Defaults.this_of; simpl; by rewrite Hopt).
  rewrite Hinfo in Hdoc. change (document w0) with page in Hdoc.
  split; [exact Hdoc|].
  set (doc0 := document (init w0).2) in *.
  destruct (animate_after_render changed w wr Hr) as [Ha Hp].
  assert (page_shape wr = (true, skeleton doc0)) as Hshape.
  { rewrite Hp. unfold w. rewrite run_ops_page, construct_page.
    unfold page_shape. by rewrite Hthat, Hinfo. }
  injection Hshape as Hflag Hsk.
  rewrite Hflag in Ha.
  assert (∃ e0, getElementById "graph-info" doc0 = Some e0
                ∧ (Forall (fun e => elem_id e ≠ Some "graph-info")
                          (page ++ [renderer_domElement; stats_domElement]) →
                   e0 = graph_info_div)) as (e0 & He0 & Hdiv).
  { rewrite Hdoc, !app_assoc, getElementById_app.
    destruct (getElementById "graph-info" (_ ++ _)) as [e1|] eqn:E1.
    - exists e1. split; [done|]. intros Hnone. exfalso.
      rewrite getElementById_absent in E1; [done|].
      rewrite Forall_app in Hnone. destruct Hnone as [Hpage Hext].
      apply Forall_cons in Hext as [Hr' Hext]. apply Forall_cons in Hext as [Hs' _].
      rewrite !Forall_app. split_and!; [done|by apply Forall_singleton|].
      destruct (This.show_stats (that w0)); [by apply Forall_singleton|constructor]. 
    - by exists graph_info_div. }
  pose proof (getElementById_skeleton "graph-info" _ _ Hsk) as Hfound.
  rewrite He0 in Hfound.
  destruct (getElementById "graph-info" (document wr)) as [e|] eqn:E; [|done].
  injection Hfound as Htag Hid.
  destruct (set_innerHTML_found _ (info_string (info_text wr)) _ _ E)
    as (doc' & Hset & _ & Hget).
  assert (animate changed w = (Returned tt, upd_document (fun _ => doc') wr)) as Hrun
    by (rewrite Ha; unfold printInfo; by rewrite Hset).
  unfold text. rewrite Hrun. simpl. rewrite Hget, <- info_string_join.
  split_and!; [done|done|].
  intros Hnone. rewrite Htag, Hid, (Hdiv Hnone). done.
Qed.

End with_collaborators.

Lemma render_polls_layout_witness :
  (calls (render Standin.constructed).2 = calls Standin.constructed ++ [CallGenerate]
   ∧ get_prop "calc" (info_text (render Standin.constructed).2) = Some calculating)
  ∧ (calls (render (stop_calculating Standin.constructed).2).2
       = calls (stop_calculating Standin.constructed).2 ++ []
     ∧ get_prop "calc" (info_text (render (stop_calculating Standin.constructed).2).2)
       = Some "").
Proof.
  split.
  - apply (render_polls_layout Standin.constructed 99999%N). vm_compute. reflexivity.
  - apply (render_polls_layout (stop_calculating Standin.constructed).2 0%N).
    vm_compute. reflexivity.
Defined.

Lemma info_box_every_frame_witness :
  let w0 := world0 (C := Standin.standin) (Some Standin.example_options) [] in
  let w := run_ops [OpAnimate false; OpStopCalculating] (construct w0).2 in
  let text :=
    String.concat " - " (filter (fun s => s ≠ "") (info_text (animate true w).2).*2) in
  document (init w0).2
    = [] ++ [renderer_domElement]
      ++ (if This.show_stats (that w0) then [stats_domElement] else [])
      ++ [mkElement "div" (Some "graph-info") ""]
  ∧ (animate true w).1 = Returned tt
  ∧ innerHTML <$> getElementById "graph-info" (document (animate true w).2)
    = Some text
  ∧ (Forall (fun e => elem_id e ≠ Some "graph-info")
            ([] ++ [renderer_domElement; stats_domElement]) →
     getElementById "graph-info" (document (animate true w).2)
     = Some (mkElement "div" (Some "graph-info") text)).
Proof.
  apply (info_box_every_frame (C := Standin.standin) Standin.example_options []
           [OpAnimate false; OpStopCalculating] true
           (((if true then render else ret tt) ;;; render)
              (run_ops [OpAnimate false; OpStopCalculating]
                 (construct (world0 (Some Standin.example_options) [])).2)).2).
  - reflexivity.
  - vm_compute. reflexivity.
Defined.

(** The frame of the witness above, evaluated: the layout has been stopped,
    so [info_text.calc] is empty and leaves no separator behind. *)
Example info_box_text :
  let w := run_ops [OpAnimate false; OpStopCalculating]
             (construct Standin.example_world).2 in
  getElementById "graph-info" (document (animate true w).2)
  = Some (mkElement "div" (Some "graph-info") "Nodes 71 - Edges 148")
  ∧ getElementById "graph-info" (document Standin.constructed)
    = Some (mkElement "div" (Some "graph-info")
              "Nodes 71 - Edges 148 - <span style='color: red'>Calculating layout...</span>").
Proof. vm_compute. done. Qed.

(** C8 as the specification words it, refuted.  On a page that already holds
    an element with id "graph-info", line 363 finds that element, which
    comes before the [div] appended at line 145: after construction and one
    more frame the created [div], the last element of the page, is still
    empty, and the text has gone to the older element. *)
Lemma info_box_created_div_not_written :
  let page := [mkElement "p" (Some "graph-info") "old"] in
  let w0 := world0 (C := Standin.standin) (Some Standin.example_options) page in
  let w := (construct w0).2 in
  let text :=
    String.concat " - " (filter (fun s => s ≠ "") (info_text (animate false w).2).*2) in
  This.show_info (that w0) = true
  ∧ last (document (init w0).2) = Some (mkElement "div" (Some "graph-info") "")
  ∧ (animate false w).1 = Returned tt
  ∧ text = "Nodes 71 - Edges 148 - <span style='color: red'>Calculating layout...</span>"
  ∧ last (document (animate false w).2) = Some (mkElement "div" (Some "graph-info") "")
  ∧ innerHTML <$> last (document (animate false w).2) ≠ Some text
  ∧ head (document (animate false w).2) = Some (mkElement "p" (Some "graph-info") text).
Proof. vm_compute. split_and!; try reflexivity. discriminate. Qed.

Lemma graph_fixed_after_construction_witness :
  let ops := [OpAnimate true; OpSelected (Some "T344049175"); OpStopCalculating;
              OpRender; OpPrintInfo] in
  Graph_nodes (graph (run_ops ops Standin.constructed))
    = Graph_nodes (graph Standin.constructed)
  ∧ Graph_edges (graph (run_ops ops Standin.constructed))
    = Graph_edges (graph Standin.constructed)
  ∧ node_id <$> heap (run_ops ops Standin.constructed)
    = node_id <$> heap Standin.constructed.
Proof.
  apply (graph_fixed_after_construction (C := Standin.standin)).
  intros l g. simpl. done.
Defined.

End RenderClaims.

End DrawingFacts.

(** * Further properties of the transform, for any bucket *)

Module TransformExtras.
Import Transform Expected TransformFacts.

Lemma bind_nodes_of_track (trs : list Track) :
  trs ≫= nodes_of_track = track_node <$> filter (fun t => has_tags t = true) trs.
Proof.
  induction trs as [|t trs IH]; [done|].
  rewrite bind_cons, filter_cons, IH. unfold nodes_of_track.
  destruct (has_tags t); by case_decide.
Qed.

Lemma bind_edges_of_track (trs : list Track) :
  trs ≫= edges_of_track = trs ≫= (fun t => track_edge t <$> default [] (tags t)).
Proof.
  induction trs as [|t trs IH]; [done|].
  rewrite !bind_cons, IH. f_equal. unfold edges_of_track, has_tags.
  destruct (tags t) as [[|tag tgs]|]; done.
Qed.

(** X1.  For any bucket whose track ids are safe integers the loops of
    lines 160-186 build: one node per track with a non-empty tag list, in the
    order of [bucket.tracks], followed by one node per entry of [bucket.tags]
    in its order; and, track after track, one edge per entry of the track's
    tag list in its order. *)
Theorem transform_in_order (b : Bucket) :
  safe_track_ids b →
  nodes b
  = ((fun t => {| id := "T" +:+ pretty (trackId t); label := ""; group := "tracks" |})
       <$> tagged_tracks b)
    ++ ((fun tag => {| id := "C" +:+ tag; label := tag; group := "tags" |})
          <$> bucket_tags b)
  ∧ edge_list b
    = bucket_tracks b ≫=
        (fun t => (fun tag => {| from := "T" +:+ pretty (trackId t); to := "C" +:+ tag |})
                    <$> default [] (tags t)).
Proof.
  intros _. split.
  - by rewrite nodes_spec, bind_nodes_of_track.
  - by rewrite edge_list_spec, bind_edges_of_track.
Qed.

Lemma transform_in_order_witness :
  let b := mkBucket [mkTrack 7 (Some ["live"; "jazz"]) None; mkTrack 8 None None;
                     mkTrack 9 (Some []) (Some "quiet")] ["jazz"] in
  nodes b
  = ((fun t => {| id := "T" +:+ pretty (trackId t); label := ""; group := "tracks" |})
       <$> tagged_tracks b)
    ++ ((fun tag => {| id := "C" +:+ tag; label := tag; group := "tags" |})
          <$> bucket_tags b)
  ∧ edge_list b
    = bucket_tracks b ≫=
        (fun t => (fun tag => {| from := "T" +:+ pretty (trackId t); to := "C" +:+ tag |})
                    <$> default [] (tags t)).
Proof.
  intros b. apply (transform_in_order b).
  apply (bool_decide_unpack _). vm_compute. exact I.
Defined.

(** X2.  The ids of the node list are pairwise distinct exactly when the
    tracks with a non-empty tag list have pairwise distinct track ids and
    [bucket.tags] lists no tag twice. *)
Theorem node_ids_distinct_iff (b : Bucket) :
  NoDup (id <$> nodes b)
  ↔ NoDup (trackId <$> tagged_tracks b) ∧ NoDup (bucket_tags b).
Proof.
  rewrite nodes_spec, bind_nodes_of_track, fmap_app, <- !list_fmap_compose.
  fold (tagged_tracks b).
  assert (Inj (=) (=) (fun i : N => "T" +:+ pretty i)) as HT
    by (intros i j; apply T_prefix_inj).
  assert (Inj (=) (=) (fun s : string => "C" +:+ s)) as HC
    by (intros s1 s2; apply C_prefix_inj).
  change (id ∘ track_node) with ((fun i : N => "T" +:+ pretty i) ∘ trackId).
  change (id ∘ tag_node) with (fun s : string => "C" +:+ s).
  rewrite list_fmap_compose, NoDup_app, !(NoDup_fmap _). split.
  - by intros (? & _ & ?).
  - intros [? ?]. split_and!; [done| |done].
    intros i (j & -> & _)%list_elem_of_fmap (s & Heq & _)%list_elem_of_fmap.
    by apply T_not_C in Heq.
Qed.

(** X3.  For any bucket whose track ids are safe integers and any tag [tag]
    of a track [t], the edge for ([t], [tag]) is in the edge list and its [from] is the id of a node of
    the node list; its [to] is the id of a node of the list exactly when
    [tag] is listed in [bucket.tags]. *)
Theorem edge_endpoints_in_nodes (b : Bucket) (t : Track) (tag : string) :
  safe_track_ids b →
  association b t tag →
  let e := {| from := "T" +:+ pretty (trackId t); to := "C" +:+ tag |} in
  e ∈ edge_list b
  ∧ from e ∈ id <$> nodes b
  ∧ (to e ∈ id <$> nodes b ↔ tag ∈ bucket_tags b).
Proof.
  intros _ Hassoc e. split_and!.
  - apply elem_of_edge_list. by exists t, tag.
  - apply list_elem_of_fmap. exists (track_node t). split; [done|].
    apply elem_of_nodes. left. exists t.
    split_and!; [by destruct Hassoc | by eapply association_has_tags | done].
  - rewrite list_elem_of_fmap. split.
    + intros (n & Hid & [(t' & _ & _ & ->)|(tag' & Htag' & ->)]%elem_of_nodes).
      * simpl in Hid. symmetry in Hid. by apply T_not_C in Hid.
      * simpl in Hid. apply C_prefix_inj in Hid. by subst.
    + intros Htag. exists (tag_node tag). split; [done|].
      apply elem_of_nodes. right. by exists tag.
Qed.

Lemma edge_endpoints_in_nodes_witness :
  let b := mkBucket [mkTrack 7 (Some ["live"; "jazz"]) None] ["jazz"] in
  let t := mkTrack 7 (Some ["live"; "jazz"]) None in
  ({| from := "T" +:+ pretty 7%N; to := "C" +:+ "live" |} ∈ edge_list b
   ∧ "T" +:+ pretty 7%N ∈ id <$> nodes b
   ∧ ("C" +:+ "live" ∈ id <$> nodes b ↔ "live" ∈ bucket_tags b))
  ∧ "live" ∉ bucket_tags b.
Proof.
  intros b t. split.
  - apply (edge_endpoints_in_nodes b t "live").
    + apply (bool_decide_unpack _). vm_compute. exact I.
    + split.
      * apply (bool_decide_unpack _). vm_compute. exact I.
      * exists ["live"; "jazz"]. split; [reflexivity|].
        apply (bool_decide_unpack _). vm_compute. exact I.
  - apply (bool_decide_unpack _). vm_compute. exact I.
Defined.

End TransformExtras.

(** * Further properties of the option defaults *)

Module DefaultsExtras.
Import Defaults.

Lemma num_or_nonzero v d : d ≠ 0%Z → num_or v d ≠ 0%Z.
Proof.
  intros Hd. unfold num_or. destruct v as [n|]; [|done].
  by destruct (Z.eqb_spec n 0).
Qed.

Lemma num_or_idem v d : d ≠ 0%Z → num_or (Some (num_or v d)) d = num_or v d.
Proof.
  intros Hd. pose proof (num_or_nonzero v d Hd) as Hn.
  unfold num_or at 1. by destruct (Z.eqb_spec (num_or v d) 0).
Qed.

Lemma str_or_idem v d : str_or (Some (str_or v d)) d = str_or v d.
Proof.
  unfold str_or at 1. case_decide as H; [|done].
  rewrite H. unfold str_or in H. destruct v as [s|]; [|done].
  by case_decide.
Qed.

(** X4.  Whatever options are passed, and also when none are, lines 52-62
    store for the layout, the limit, the node count and the edge count the
    given value when it is truthy, and "2d", 10, 20 and 10 when it is
    omitted, empty or zero; so none of the four stored values is ever
    falsy. *)
Theorem stored_options_truthy (options : option Options.t) :
  let o := default Options.empty options in
  let t := this_of options in
  (This.layout t ≠ "" ∧ This.limit t ≠ 0%Z
   ∧ This.nodes_count t ≠ 0%Z ∧ This.edges_count t ≠ 0%Z)
  ∧ (Options.layout o = None ∨ Options.layout o = Some "" → This.layout t = "2d")
  ∧ (∀ s, Options.layout o = Some s → s ≠ "" → This.layout t = s)
  ∧ (Options.limit o = None ∨ Options.limit o = Some 0%Z → This.limit t = 10%Z)
  ∧ (∀ n, Options.limit o = Some n → n ≠ 0%Z → This.limit t = n)
  ∧ (Options.numNodes o = None ∨ Options.numNodes o = Some 0%Z
     → This.nodes_count t = 20%Z)
  ∧ (∀ n, Options.numNodes o = Some n → n ≠ 0%Z → This.nodes_count t = n)
  ∧ (Options.numEdges o = None ∨ Options.numEdges o = Some 0%Z
     → This.edges_count t = 10%Z)
  ∧ (∀ n, Options.numEdges o = Some n → n ≠ 0%Z → This.edges_count t = n).
Proof.
  intros o t. subst t. unfold this_of. fold o. cbn -[num_or str_or].
  split_and!.
  - unfold str_or. destruct (Options.layout o) as [s|]; [|done].
    by case_decide.
  - by apply num_or_nonzero.
  - by apply num_or_nonzero.
  - by apply num_or_nonzero.
  - by intros [-> | ->].
  - intros s -> Hs. unfold str_or. by case_decide.
  - by intros [-> | ->].
  - intros n -> Hn. unfold num_or. by destruct (Z.eqb_spec n 0).
  - by intros [-> | ->].
  - intros n -> Hn. unfold num_or. by destruct (Z.eqb_spec n 0).
  - by intros [-> | ->].
  - intros n -> Hn. unfold num_or. by destruct (Z.eqb_spec n 0).
Qed.

Lemma stored_options_truthy_witness :
  let t := this_of (Some (Options.mk (Some "3d") None None None None None
                            (Some 0%Z) None (Some 5%Z))) in
  This.layout t = "3d" ∧ This.limit t = 10%Z
  ∧ This.nodes_count t = 20%Z ∧ This.edges_count t = 5%Z.
Proof.
  intros t.
  destruct (stored_options_truthy
              (Some (Options.mk (Some "3d") None None None None None
                       (Some 0%Z) None (Some 5%Z))))
    as (_ & _ & Hlayout & Hlimit & _ & Hnodes & _ & _ & Hedges).
  split_and!.
  - by apply Hlayout.
  - apply Hlimit. by right.
  - apply Hnodes. by left.
  - by apply Hedges.
Defined.

(** X5.  Completing the layout options (lines 206-209) leaves all four of
    them defined, with non-zero width, height and iterations, and doing it a
    second time changes nothing. *)
Theorem complete_layout_options_idempotent (t : This.t) :
  let t' := Drawing.complete_layout_options t in
  Drawing.complete_layout_options t' = t'
  ∧ (∃ w h i l,
       This.layout_options t' = mkLayoutOptions (Some w) (Some h) (Some i) (Some l)
       ∧ w ≠ 0%Z ∧ h ≠ 0%Z ∧ i ≠ 0%Z).
Proof.
  intros t'. split.
  - unfold t', Drawing.complete_layout_options. cbn -[num_or str_or].
    by rewrite !num_or_idem, str_or_idem.
  - eexists _, _, _, _. split; [reflexivity|].
    split_and!; by apply num_or_nonzero.
Qed.

End DefaultsExtras.

(** * Further properties of the drawing *)

Module DrawingExtras.
Import Drawing DrawingFacts.

Section population.
Context {C : Collaborators}.

Lemma drawn_at_Some h r :
  drawn_at h (Some r) = true ↔ ∃ n m, h !! r = Some n ∧ draw_object n = Some m.
Proof.
  unfold drawn_at. simpl. destruct (h !! r) as [n|].
  - destruct (draw_object n) as [m|] eqn:E.
    + split; [|done]. intros _. by exists n, m.
    + split; [done|]. intros (n' & m & [= <-] & Hm). congruence.
  - split; [done|]. by intros (n & m & ? & _).
Qed.

Lemma drawn_at_None h : drawn_at h None = false.
Proof. done. Qed.

(** [drawEdge], case by case. *)
Lemma drawEdge_eq source target w :
  drawEdge source target w
  = match source, target with
    | Some s, Some t =>
        if drawn_at (heap w) source && drawn_at (heap w) target
        then (Returned tt,
              upd_scene (fun l => l ++ [SLine s t])
                (upd_geometries (fun l => l ++ [(s, t)])
                   (upd_calls (fun l => l ++ [CallDrawEdge source target]) w)))
        else (Thrown TypeError, upd_calls (fun l => l ++ [CallDrawEdge source target]) w)
    | _, _ => (Thrown TypeError, upd_calls (fun l => l ++ [CallDrawEdge source target]) w)
    end.
Proof.
  unfold drawEdge, draw_object_position, deref, bind, log, modify, throw, ret,
    scene_add, drawn_at.
  destruct source as [s|]; simpl; [|by destruct target].
  destruct (heap w !! s) as [ns|]; simpl; [|by destruct target].
  destruct (draw_object ns); simpl; [|by destruct target].
  destruct target as [t|]; simpl; [|done].
  destruct (heap w !! t) as [nt|]; simpl; [|done].
  by destruct (draw_object nt).
Qed.

(** X6.  [drawEdge] returns normally exactly when both of its arguments are
    node objects that have been drawn, and then appends one line to the scene
    and one geometry to [geometries]; in every other case it throws a
    TypeError and leaves scene and [geometries] as they were.  It never
    writes a node object. *)
Theorem drawEdge_needs_drawn_endpoints (source target : option ref) (w : World) :
  let w' := (drawEdge source target w).2 in
  heap w' = heap w
  ∧ if drawn_at (heap w) source && drawn_at (heap w) target
    then ∃ s t, source = Some s ∧ target = Some t
                ∧ (drawEdge source target w).1 = Returned tt
                ∧ scene w' = scene w ++ [SLine s t]
                ∧ geometries w' = geometries w ++ [(s, t)]
    else (drawEdge source target w).1 = Thrown TypeError
         ∧ scene w' = scene w ∧ geometries w' = geometries w.
Proof.
  rewrite drawEdge_eq.
  destruct source as [s|], target as [t|]; simpl; rewrite ?andb_false_r; try done.
  destruct (drawn_at (heap w) (Some s) && drawn_at (heap w) (Some t)); simpl; [|done].
  split; [done|]. by exists s, t.
Qed.

(** One round of the node loop, in full. *)
Lemma node_step_full gvn node w :
  let r := length (heap w) in
  let res := Graph_addNode (graph w) (heap w ++ [fresh_node node]) r in
  node_step gvn node w
  = (Returned (<[id node := r]> gvn),
     mkWorld (that w) res.2 (graph_layout w)
       (heap w ++ [node_round_object (This.show_labels (that w)) node res.1])
       (scene w ++ node_round_scene (This.show_labels (that w)) r res.1)
       (geometries w) (info_text w) (document w)
       (calls w ++ node_round_calls r res.1)).
Proof.
  intros r res. subst r res.
  unfold node_round_object, node_round_scene, node_round_calls, drawn_node, fresh_node.
  unfold node_step, drawNode, bind, new_Node, write, modify, addNode, deref, get, log,
    scene_add, ret, upd_heap, upd_calls, upd_graph, upd_scene.
  simpl.
  destruct (decide (label node = ""));
    repeat (rewrite ?alter_fresh, ?lookup_fresh; simpl);
    (destruct (Graph_addNode _ _ _) as [[] g];
     repeat (rewrite ?alter_fresh, ?lookup_fresh; simpl);
     [ destruct (This.show_labels (that w));
       repeat (rewrite ?alter_fresh, ?lookup_fresh; simpl) | ]);
    rewrite <- ?app_assoc, ?app_nil_r; reflexivity.
Qed.

Lemma imap_shift {A B} (f : nat → A → B) (base : nat) (l : list A) :
  imap (fun k => f (S base + k)) l = imap ((fun k => f (base + k)) ∘ S) l.
Proof. apply imap_ext. intros k x _. simpl. f_equal. lia. Qed.

(** The node loop, summed up by the answers [bs] of [graph.addNode]. *)
Lemma node_loop_summary nodes gvn w :
  let base := length (heap w) in
  let labels := This.show_labels (that w) in
  ∃ bs gvn' w',
    length bs = length nodes
    ∧ forEach_with node_step nodes gvn w = (Returned gvn', w')
    ∧ heap w' = heap w ++ zip_with (node_round_object labels) nodes bs
    ∧ calls w' = calls w ++ mjoin (imap (fun k => node_round_calls (base + k)) bs)
    ∧ scene w' = scene w ++ mjoin (imap (fun k => node_round_scene labels (base + k)) bs)
    ∧ gvn' = fold_left (fun m p => <[p.1 := p.2]> m)
                       (zip (id <$> nodes) (seq base (length nodes))) gvn
    ∧ that w' = that w ∧ geometries w' = geometries w.
Proof.
  revert gvn w. induction nodes as [|node nodes IH]; intros gvn w base labels.
  - exists [], gvn, w. simpl. by rewrite !app_nil_r.
  - pose proof (node_step_full gvn node w) as Hstep. simpl in Hstep.
    set (res := Graph_addNode _ _ _) in Hstep.
    set (w1 := mkWorld _ _ _ _ _ _ _ _ _) in Hstep.
    destruct (IH (<[id node := base]> gvn) w1)
      as (bs & gvn' & w' & Hlen & Hloop & Hheap & Hcalls & Hscene & Hgvn & Hthat & Hgeo).
    assert (length (heap w1) = S base) as Hbase
      by (unfold w1; simpl; rewrite length_app; simpl; lia).
    rewrite Hbase in Hcalls, Hscene, Hgvn.
    exists (res.1 :: bs), gvn', w'. split_and!.
    + simpl. by rewrite Hlen.
    + simpl. unfold bind. fold base. by rewrite Hstep.
    + rewrite Hheap. unfold w1. simpl. by rewrite <- app_assoc.
    + rewrite Hcalls, imap_cons, Nat.add_0_r, imap_shift.
      change (calls w1) with (calls w ++ node_round_calls base res.1).
      by rewrite <- app_assoc.
    + rewrite Hscene, imap_cons, Nat.add_0_r.
      rewrite (imap_shift (fun k => node_round_scene labels k)).
      change (scene w1) with (scene w ++ node_round_scene labels base res.1).
      by rewrite <- app_assoc.
    + done.
    + by rewrite Hthat.
    + by rewrite Hgeo.
Qed.

(** *** What [graphVisNodes] holds after the node loop *)

Lemma filed_absent (ids : list string) (base : nat) (gvn : gmap string ref) i :
  i ∉ ids →
  fold_left (fun m p => <[p.1 := p.2]> m) (zip ids (seq base (length ids))) gvn !! i
  = gvn !! i.
Proof.
  revert base gvn. induction ids as [|x ids IH]; intros base gvn Hi; [done|].
  apply not_elem_of_cons in Hi as [Hne Hi]. simpl.
  rewrite IH by done. by rewrite lookup_insert_ne.
Qed.

Lemma filed_last (l1 l2 : list string) (base : nat) (gvn : gmap string ref) i :
  i ∉ l2 →
  fold_left (fun m p => <[p.1 := p.2]> m)
            (zip (l1 ++ i :: l2) (seq base (length (l1 ++ i :: l2)))) gvn !! i
  = Some (base + length l1).
Proof.
  intros Hi. revert base gvn. induction l1 as [|x l1 IH]; intros base gvn; simpl.
  - rewrite filed_absent by done. by rewrite lookup_insert_eq, Nat.add_0_r.
  - rewrite IH. f_equal. lia.
Qed.

Lemma node_loop_result nodes gvn w gvn' w' :
  forEach_with node_step nodes gvn w = (Returned gvn', w') →
  ∃ bs,
    length bs = length nodes
    ∧ heap w' = heap w ++ zip_with (node_round_object (This.show_labels (that w))) nodes bs
    ∧ calls w'
      = calls w ++ mjoin (imap (fun k => node_round_calls (length (heap w) + k)) bs)
    ∧ scene w'
      = scene w ++ mjoin (imap (fun k => node_round_scene (This.show_labels (that w))
                                           (length (heap w) + k)) bs)
    ∧ gvn' = fold_left (fun m p => <[p.1 := p.2]> m)
                       (zip (id <$> nodes) (seq (length (heap w)) (length nodes))) gvn
    ∧ geometries w' = geometries w.
Proof.
  intros Hloop.
  destruct (node_loop_summary nodes gvn w)
    as (bs & gvn1 & w1 & Hlen & Hloop1 & Hheap & Hcalls & Hscene & Hgvn & _ & Hgeo).
  rewrite Hloop in Hloop1. injection Hloop1 as <- <-. by exists bs.
Qed.

(** X7.  The node loop never throws.  It appends one node object per
    description, in order, and leaves the objects that were there untouched;
    with [bs] the answers of [graph.addNode], the k-th new object, the calls
    made and the children added to the scene are those of a round that drew
    the node exactly when the k-th answer was truthy.  [graphVisNodes] keeps
    its other keys and files every id under the address of the last
    description that carries it. *)
Theorem node_loop_effect (nodes : list NodeData) (graphVisNodes : gmap string ref)
    (w : World) :
  let base := length (heap w) in
  let labels := This.show_labels (that w) in
  ∃ bs graphVisNodes' w',
    length bs = length nodes
    ∧ forEach_with node_step nodes graphVisNodes w = (Returned graphVisNodes', w')
    ∧ heap w' = heap w ++ zip_with (node_round_object labels) nodes bs
    ∧ calls w' = calls w ++ mjoin (imap (fun k => node_round_calls (base + k)) bs)
    ∧ scene w' = scene w ++ mjoin (imap (fun k => node_round_scene labels (base + k)) bs)
    ∧ (∀ i, i ∉ id <$> nodes → graphVisNodes' !! i = graphVisNodes !! i)
    ∧ (∀ l1 node l2, nodes = l1 ++ node :: l2 → id node ∉ id <$> l2 →
         graphVisNodes' !! id node = Some (base + length l1)).
Proof.
  intros base labels.
  destruct (node_loop_summary nodes graphVisNodes w)
    as (bs & gvn' & w' & Hlen & Hloop & Hheap & Hcalls & Hscene & Hgvn & _).
  exists bs, gvn', w'. split_and!; try done.
  - intros i Hi. rewrite Hgvn, <- (length_fmap id). by apply filed_absent.
  - intros l1 node l2 -> Hlast.
    rewrite Hgvn, <- (length_fmap id), fmap_app, fmap_cons.
    rewrite filed_last by done. by rewrite length_fmap.
Qed.

End population.

Lemma node_loop_effect_witness :
  let n1 := {| id := "Cjazz"; label := "jazz"; group := "tags" |} in
  let n2 := {| id := "T7"; label := ""; group := "tracks" |} in
  let w := world0 (C := Standin.standin) None [] in
  ∃ gvn' w',
    forEach_with node_step [n1; n2; n1] ∅ w = (Returned gvn', w')
    ∧ gvn' !! "Cjazz" = Some 2
    ∧ gvn' !! "Cblues" = None.
Proof.
  intros n1 n2 w.
  destruct (node_loop_effect (C := Standin.standin) [n1; n2; n1] ∅ w)
    as (bs & gvn' & w' & _ & Hloop & _ & _ & _ & Habsent & Hlast).
  exists gvn', w'. split; [exact Hloop|]. split.
  - apply (Hlast [n1; n2] n1 []); [reflexivity|].
    apply (bool_decide_unpack _). vm_compute. exact I.
  - rewrite Habsent; [reflexivity|].
    apply (bool_decide_unpack _). vm_compute. exact I.
Defined.

Section edge_loop.
Context {C : Collaborators}.

Lemma edge_step_returns gvn edge w :
  drawn_at (heap w) (gvn !! from edge) = true →
  drawn_at (heap w) (gvn !! to edge) = true →
  (edge_step gvn edge w).1 = Returned tt.
Proof.
  intros Hs Ht. unfold edge_step, bind, addEdge.
  destruct (Graph_addEdge _ _ _ _) as [[] g]; simpl; [|done].
  rewrite drawEdge_eq. simpl. rewrite Hs, Ht. simpl.
  destruct (gvn !! from edge), (gvn !! to edge); done.
Qed.

Lemma edge_loop_returns gvn edges w :
  (∀ e, e ∈ edges →
     drawn_at (heap w) (gvn !! from e) = true ∧ drawn_at (heap w) (gvn !! to e) = true) →
  (forEach (edge_step gvn) edges w).1 = Returned tt.
Proof.
  revert w. induction edges as [|edge edges IH]; intros w Hdrawn; [done|].
  destruct (Hdrawn edge) as [Hs Ht]; [left|].
  pose proof (edge_step_returns gvn edge w Hs Ht) as Hret.
  pose proof (edge_step_heap gvn edge w) as Hheap.
  simpl. unfold bind. destruct (edge_step gvn edge w) as [[[]|err] w1]; [|done].
  simpl in Hheap. apply IH. intros e He. rewrite Hheap. apply Hdrawn. by right.
Qed.

Lemma accepted_answers (base : nat) (bs : list bool) :
  Forall (fun c => is_rejected_node c = false)
         (mjoin (imap (fun k => node_round_calls (base + k)) bs)) →
  ∀ k b, bs !! k = Some b → b = true.
Proof.
  rewrite Forall_forall. intros Hall k b Hk.
  assert (CallAddNode (base + k) b ∈ mjoin (imap (fun k => node_round_calls (base + k)) bs))
    as Hin.
  { apply list_elem_of_join. exists (node_round_calls (base + k) b). split; [by left|].
    by apply (elem_of_lookup_imap_2 (fun k => node_round_calls (base + k))). }
  specialize (Hall _ Hin). by destruct b.
Qed.

(** X8.  When every endpoint of every edge description is the id of a node
    description and no [addNode] call of the population was answered with a
    falsy value, the population returns normally, whatever [addEdge]
    answers. *)
Theorem populate_returns_when_nodes_accepted (nodes : list NodeData)
    (edges : list EdgeData) (w : World) (new : list Call) :
  (∀ e, e ∈ edges → from e ∈ id <$> nodes ∧ to e ∈ id <$> nodes) →
  calls (populate nodes edges w).2 = calls w ++ new →
  Forall (fun c => is_rejected_node c = false) new →
  (populate nodes edges w).1 = Returned tt.
Proof.
  intros Hends Hcalls Hacc.
  destruct (node_loop_summary nodes ∅ w)
    as (bs & gvn & w1 & Hlen & Hloop & Hheap & Hcalls1 & _ & Hgvn & _).
  destruct (edge_loop_spec gvn edges w1) as (new2 & Hcalls2 & _).
  assert (populate nodes edges w = forEach (edge_step gvn) edges w1) as Hpop
    by (unfold populate, bind; by rewrite Hloop).
  rewrite Hpop in Hcalls |- *.
  rewrite Hcalls2, Hcalls1, <- app_assoc in Hcalls.
  apply app_inv_head in Hcalls. subst new.
  apply Forall_app in Hacc as [Hacc _].
  pose proof (accepted_answers _ _ Hacc) as Htrue.
  assert (∀ i, i ∈ id <$> nodes → drawn_at (heap w1) (gvn !! i) = true) as Hdrawn.
  { intros i Hi.
    apply list_elem_of_split_r in Hi as (l1 & l2 & Hsplit & Hlast).
    assert (length l1 < length nodes) as Hlt.
    { rewrite <- (length_fmap id nodes), Hsplit, length_app. simpl. lia. }
    rewrite Hgvn, <- (length_fmap id), Hsplit, filed_last by done.
    destruct (lookup_lt_is_Some_2 nodes (length l1) Hlt) as [node Hnode].
    destruct (lookup_lt_is_Some_2 bs (length l1)) as [b Hb]; [lia|].
    rewrite (Htrue _ _ Hb) in Hb.
    apply drawn_at_Some. rewrite Hheap, lookup_app_r by lia.
    replace (length (heap w) + length l1 - length (heap w)) with (length l1) by lia.
    rewrite lookup_zip_with, Hnode, Hb. simpl. eauto. }
  apply edge_loop_returns. intros e He. destruct (Hends e He). split; by apply Hdrawn.
Qed.

(** X9.  After the node loop has filled [graphVisNodes], an edge description
    with an endpoint that is the id of no node description makes its round
    hand [undefined] to [graph.addEdge]; the round then throws a TypeError in
    [drawEdge] exactly when [addEdge] answers truthy, and returns normally,
    drawing nothing, when it answers falsy. *)
Theorem edge_round_with_unknown_endpoint (nodes : list NodeData) (w : World)
    (graphVisNodes : gmap string ref) (w1 : World) (e : EdgeData) (w2 : World) :
  forEach_with node_step nodes ∅ w = (Returned graphVisNodes, w1) →
  from e ∉ id <$> nodes ∨ to e ∉ id <$> nodes →
  let source := graphVisNodes !! from e in
  let target := graphVisNodes !! to e in
  let added := (Graph_addEdge (graph w2) (heap w2) source target).1 in
  (source = None ∨ target = None)
  ∧ calls (edge_step graphVisNodes e w2).2
    = calls w2 ++ CallAddEdge source target added
                  :: (if added then [CallDrawEdge source target] else [])
  ∧ (edge_step graphVisNodes e w2).1
    = (if added then Thrown TypeError else Returned tt)
  ∧ scene (edge_step graphVisNodes e w2).2 = scene w2
  ∧ geometries (edge_step graphVisNodes e w2).2 = geometries w2.
Proof.
  intros Hloop Hunknown source target added.
  destruct (node_loop_result _ _ _ _ _ Hloop) as (bs & _ & _ & _ & _ & Hgvn & _).
  assert (source = None ∨ target = None) as Hnone.
  { unfold source, target. rewrite Hgvn, <- (length_fmap id).
    destruct Hunknown as [H|H]; [left|right]; by rewrite filed_absent. }
  split; [done|].
  destruct (edge_step_spec graphVisNodes e w2) as [Hcalls Hfalsy].
  split; [exact Hcalls|].
  fold source target added in Hfalsy.
  destruct added eqn:Hadded.
  - clear Hfalsy. unfold edge_step, bind, addEdge.
    fold source target. unfold added in Hadded.
    destruct (Graph_addEdge _ _ _ _) as [b g]. simpl in Hadded. subst b. simpl.
    rewrite drawEdge_eq.
    destruct Hnone as [-> | ->]; [done|]. by destruct source.
  - by destruct Hfalsy as (? & ? & ?).
Qed.

End edge_loop.

Lemma populate_returns_when_nodes_accepted_witness :
  let nodes := [ {| id := "T7"; label := ""; group := "tracks" |};
                 {| id := "Cjazz"; label := "jazz"; group := "tags" |} ] in
  let edges := [ {| from := "T7"; to := "Cjazz" |}; {| from := "T7"; to := "Cjazz" |} ] in
  let w := world0 (C := Standin.standin) None [] in
  (populate nodes edges w).1 = Returned tt.
Proof.
  intros nodes edges w.
  apply (populate_returns_when_nodes_accepted (C := Standin.standin) nodes edges w
           [CallAddNode 0 true; CallDrawNode 0; CallAddNode 1 true; CallDrawNode 1;
            CallAddEdge (Some 0) (Some 1) true; CallDrawEdge (Some 0) (Some 1);
            CallAddEdge (Some 0) (Some 1) false]).
  - intros e He. split; apply (bool_decide_unpack _);
      revert e He; apply Forall_forall; apply (bool_decide_unpack _); vm_compute; exact I.
  - vm_compute. reflexivity.
  - apply (bool_decide_unpack _). vm_compute. exact I.
Defined.

Lemma edge_round_with_unknown_endpoint_witness :
  let nodes := [ {| id := "T7"; label := ""; group := "tracks" |} ] in
  let e := {| from := "T7"; to := "Cjazz" |} in
  let w := world0 (C := Standin.standin) None [] in
  let gvn : gmap string ref := {[ "T7" := 0 ]} in
  let w1 := (forEach_with node_step nodes ∅ w).2 in
  (gvn !! from e = None ∨ gvn !! to e = None)
  ∧ calls (edge_step gvn e w1).2 = calls w1 ++ [CallAddEdge (Some 0) None false]
  ∧ (edge_step gvn e w1).1 = Returned tt
  ∧ scene (edge_step gvn e w1).2 = scene w1
  ∧ geometries (edge_step gvn e w1).2 = geometries w1.
Proof.
  intros nodes e w gvn w1.
  apply (edge_round_with_unknown_endpoint (C := Standin.standin) nodes w gvn w1 e w1).
  - vm_compute. reflexivity.
  - right. apply (bool_decide_unpack _). vm_compute. exact I.
Defined.

(** *** After construction *)

Section after_construction.
Context {C : Collaborators}.

Lemma preserves_generate_any {X} (proj : World → X) :
  (∀ fc fl fg w, proj (upd_calls fc (upd_graph_layout fl (upd_graph fg w))) = proj w) →
  preserves proj generate.
Proof.
  intros H w. unfold generate. destruct (graph_layout w); [|done].
  destruct (Layout_generate _ _). apply H.
Qed.

Lemma preserves_stop_calculating_any {X} (proj : World → X) :
  (∀ fl fg w, proj (upd_graph_layout fl (upd_graph fg w)) = proj w) →
  preserves proj stop_calculating.
Proof.
  intros H w. unfold stop_calculating. destruct (graph_layout w); [|done].
  destruct (Layout_stop_calculating _ _). apply H.
Qed.

Lemma preserves_printInfo_any {X} (proj : World → X) :
  (∀ f w, proj (upd_document f w) = proj w) → preserves proj printInfo.
Proof.
  intros H w. unfold printInfo. destruct (set_innerHTML _ _ _); [apply H|done].
Qed.

Lemma preserves_start_layout_any {X} (proj : World → X) :
  (∀ fl fg w, proj (upd_graph_layout fl (upd_graph fg w)) = proj w) →
  preserves proj start_layout.
Proof.
  intros H w. unfold start_layout, modify. simpl.
  destruct (Layout_init _ _). apply H.
Qed.

End after_construction.

(** [frame], with the collaborator calls and the functions built on them. *)
Ltac frame_all :=
  repeat first
    [ (apply preserves_generate_any; intros ? ? ? ?; reflexivity)
    | (apply preserves_stop_calculating_any; intros ? ? ?; reflexivity)
    | (apply preserves_printInfo_any; intros ? ?; reflexivity)
    | (apply preserves_start_layout_any; intros ? ? ?; reflexivity)
    | frame_step
    | progress unfold run_op, animate, render, poll_layout, createGraph, construct, init ].

Section no_layout.
Context {C : Collaborators}.







End no_layout.


Section invariants.
Context {C : Collaborators}.

Lemma keeps_ret {A} (I : World → Prop) (a : A) : keeps I (ret a).
Proof. by intros w. Qed.

Lemma keeps_bind {A B} (I : World → Prop) (m : M A) (k : A → M B) :
  keeps I m → (∀ a, keeps I (k a)) → keeps I (bind m k).
Proof.
  intros Hm Hk w Hw. unfold bind. specialize (Hm w Hw).
  destruct (m w) as [[a|e] w']; simpl in *; [by apply Hk | done].
Qed.

Lemma keeps_if {A} (I : World → Prop) (b : bool) (m1 m2 : M A) :
  keeps I m1 → keeps I m2 → keeps I (if b then m1 else m2).
Proof. by destruct b. Qed.

Lemma keeps_forEach {A} (I : World → Prop) (f : A → M unit) l :
  (∀ x, keeps I (f x)) → keeps I (forEach f l).
Proof.
  intros Hf. induction l as [|x l IH]; simpl; [apply keeps_ret | by apply keeps_bind].
Qed.

Lemma keeps_preserves {X A} (proj : World → X) (I : World → Prop) (m : M A) :
  preserves proj m → (∀ w w', proj w' = proj w → I w → I w') → keeps I m.
Proof. intros Hm HI w Hw. apply (HI w); [apply Hm | exact Hw]. Qed.

Lemma run_ops_keeps (I : World → Prop) ops w :
  (∀ op, keeps I (run_op op)) → I w → I (run_ops ops w).
Proof.
  intros Hop. revert w. induction ops as [|op ops IH]; intros w Hw; [done|].
  change (run_ops (op :: ops) w) with (run_ops ops (run_op op w).2).
  by apply IH, Hop.
Qed.

(** *** A layout that has converged *)

Lemma render_at_rest w :
  Layout_finished <$> graph_layout w = Some true →
  calls (render w).2 = calls w ∧ graph_layout (render w).2 = graph_layout w.
Proof.
  intros Hrest.
  rewrite (render_after_poll calls) by apply label_loops_calls.
  rewrite (render_after_poll graph_layout) by apply label_loops_graph_layout.
  unfold poll_layout, bind, get.
  destruct (graph_layout w) as [l|] eqn:Hl; [|done]. injection Hrest as ->.
  simpl. by rewrite Hl.
Qed.

(** X11.  Once [graph.layout.finished] is true, and provided
    [stop_calculating] does not make a finished layout unfinished again, no
    later frame, render, [stop_calculating] or selection calls
    [graph.layout.generate()] or anything else of the graph: the call log
    stays as it is and the layout stays finished. *)
Theorem converged_layout_is_left_alone (ops : list Op) (w : World) :
  (∀ l g, Layout_finished l = true → Layout_finished (Layout_stop_calculating l g).1 = true) →
  Layout_finished <$> graph_layout w = Some true →
  calls (run_ops ops w) = calls w
  ∧ Layout_finished <$> graph_layout (run_ops ops w) = Some true.
Proof.
  intros Hstop Hrest.
  set (I := fun w' : World =>
              calls w' = calls w ∧ Layout_finished <$> graph_layout w' = Some true).
  apply (run_ops_keeps I); [|done].
  assert (keeps I render) as Hrender.
  { intros w1 [Hc Hr]. destruct (render_at_rest w1 Hr) as [H1 H2].
    unfold I. by rewrite H1, H2. }
  assert (keeps I printInfo) as Hprint.
  { apply (keeps_preserves (fun w => (calls w, graph_layout w))).
    - apply preserves_printInfo_any. done.
    - unfold I. by intros w1 w2 [= -> ->]. }
  intros [changed| | | |obj]; simpl.
  - unfold animate. apply keeps_bind; [by apply keeps_if; [|apply keeps_ret]|].
    intros _. apply keeps_bind; [done|]. intros _.
    apply keeps_bind; [by intros ?|]. intros w1. by apply keeps_if; [|apply keeps_ret].
  - done.
  - done.
  - intros w1 [Hc Hr]. unfold stop_calculating.
    destruct (graph_layout w1) as [l|]; [|done]. injection Hr as Hl.
    pose proof (Hstop l (graph w1) Hl) as Hl'.
    destruct (Layout_stop_calculating l (graph w1)) as [l' g']. simpl in *.
    unfold I. simpl. by rewrite Hl'.
  - apply (keeps_preserves (fun w => (calls w, graph_layout w))).
    + frame.
    + unfold I. by intros w1 w2 [= -> ->].
Qed.

(** *** Meshes, lines and their geometries *)

Lemma solid_app sc1 sc2 : solid (sc1 ++ sc2) = solid sc1 ++ solid sc2.
Proof. apply filter_app. Qed.

Lemma solid_remove_label r sc : solid (remove_first (SLabel r) sc) = solid sc.
Proof.
  induction sc as [|o sc IH]; [done|]. simpl. case_decide as Ho.
  - subst o. unfold solid. by rewrite filter_cons_False.
  - unfold solid in *. rewrite !filter_cons. case_decide; by rewrite IH.
Qed.

Lemma lines_of_solid sc : lines_of (solid sc) = lines_of sc.
Proof.
  unfold lines_of, solid. induction sc as [|o sc IH]; [done|].
  rewrite filter_cons.
  destruct o; case_decide; try done; simpl; first [exact IH | f_equal; exact IH].
Qed.

Lemma lines_of_app sc1 sc2 : lines_of (sc1 ++ sc2) = lines_of sc1 ++ lines_of sc2.
Proof. apply omap_app. Qed.

Lemma show_label_solid r :
  preserves (fun w => (solid (scene w), geometries w)) (show_label r).
Proof.
  unfold show_label. apply preserves_bind; [frame|]. intros n.
  destruct (label_object n); [frame|].
  apply preserves_bind; [frame|]. intros _ w. simpl.
  by rewrite solid_app, app_nil_r.
Qed.

Lemma hide_label_solid r :
  preserves (fun w => (solid (scene w), geometries w)) (hide_label r).
Proof.
  unfold hide_label. apply preserves_bind; [frame|]. intros n.
  destruct (label_object n); [|frame].
  apply preserves_bind; [|frame]. intros w. simpl.
  by rewrite solid_remove_label.
Qed.

Lemma run_op_solid op :
  preserves (fun w => (solid (scene w), geometries w)) (run_op op).
Proof.
  assert (preserves (fun w => (solid (scene w), geometries w)) render) as Hrender.
  { unfold render. apply preserves_bind; [frame_all|]. intros _.
    apply preserves_bind; [frame|]. intros w.
    apply preserves_if; apply preserves_forEach; intros r;
      [apply show_label_solid | apply hide_label_solid]. }
  destruct op as [changed| | | |obj]; simpl.
  - unfold animate.
    apply preserves_bind; [by apply preserves_if; [|apply preserves_ret]|]. intros _.
    apply preserves_bind; [done|]. intros _.
    apply preserves_bind; [apply preserves_get|]. intros w.
    apply preserves_if; frame_all.
  - done.
  - frame_all.
  - frame_all.
  - frame_all.
Qed.

Lemma run_ops_preserves {X} (proj : World → X) ops w :
  (∀ op, preserves proj (run_op op)) → proj (run_ops ops w) = proj w.
Proof.
  intros Hop. revert w. induction ops as [|op ops IH]; intros w; [done|].
  change (run_ops (op :: ops) w) with (run_ops ops (run_op op w).2).
  by rewrite IH, Hop.
Qed.

(** X12.  After construction no frame, render, [printInfo],
    [stop_calculating] or selection removes, adds or reorders a mesh or a line
    of the scene, or touches [geometries]: only labels come and go. *)
Theorem meshes_and_lines_stay (ops : list Op) (w : World) :
  filter (fun o => is_label o = false) (scene (run_ops ops w))
  = filter (fun o => is_label o = false) (scene w)
  ∧ geometries (run_ops ops w) = geometries w.
Proof.
  pose proof (run_ops_preserves (fun w => (solid (scene w), geometries w)) ops w
                run_op_solid) as H.
  by injection H.
Qed.

Lemma node_round_scene_no_line labels r added :
  lines_of (node_round_scene labels r added) = [].
Proof. by destruct labels, added. Qed.

Lemma node_rounds_no_line labels (base : nat) (bs : list bool) :
  lines_of (mjoin (imap (fun k => node_round_scene labels (base + k)) bs)) = [].
Proof.
  revert base. induction bs as [|b bs IH]; intros base; [done|].
  rewrite imap_cons. simpl. rewrite lines_of_app, node_round_scene_no_line. simpl.
  rewrite <- (imap_shift (fun k => node_round_scene labels k)). apply IH.
Qed.

Lemma edge_step_lines gvn edge :
  keeps (fun w => lines_of (scene w) = geometries w) (edge_step gvn edge).
Proof.
  intros w Hw. unfold edge_step, bind, addEdge.
  destruct (Graph_addEdge _ _ _ _) as [[] g]; simpl; [|done].
  rewrite drawEdge_eq.
  destruct (gvn !! from edge) as [s|], (gvn !! to edge) as [t|]; simpl; try done.
  destruct (_ && _); simpl; [|done].
  by rewrite lines_of_app, Hw.
Qed.

Lemma populate_lines nodes edges :
  keeps (fun w => lines_of (scene w) = geometries w) (populate nodes edges).
Proof.
  intros w Hw. unfold populate, bind.
  destruct (node_loop_summary nodes ∅ w)
    as (bs & gvn & w1 & _ & Hloop & _ & _ & Hscene & _ & _ & Hgeo).
  rewrite Hloop. apply keeps_forEach; [apply edge_step_lines|].
  rewrite Hscene, Hgeo, lines_of_app, Hw.
  by rewrite node_rounds_no_line, app_nil_r.
Qed.

Lemma init_scene w :
  scene (init w).2 = [] ∧ geometries (init w).2 = geometries w.
Proof.
  unfold init, bind, modify, appendChild, get, ret. simpl.
  by destruct (This.show_stats (that w)), (This.show_info (that w)).
Qed.

(** X13.  From the constructor on, whether [createGraph] returns or throws
    and whatever runs afterwards, the lines of the scene and the geometries
    kept in [geometries] for the per-frame update correspond one to one, in
    order. *)
Theorem lines_match_geometries (options : option Options.t) (page : list Element)
    (ops : list Op) :
  let w := run_ops ops (construct (world0 options page)).2 in
  lines_of (scene w) = geometries w.
Proof.
  intros w. unfold w.
  pose proof (run_ops_preserves (fun w => (solid (scene w), geometries w)) ops
                (construct (world0 options page)).2 run_op_solid) as H.
  injection H as Hsolid Hgeo.
  rewrite <- lines_of_solid, Hsolid, Hgeo, lines_of_solid.
  assert (keeps (fun w => lines_of (scene w) = geometries w) createGraph) as Hcreate.
  { unfold createGraph. apply keeps_bind; [apply populate_lines|]. intros _.
    apply (keeps_preserves (fun w => (scene w, geometries w))); [frame_all|].
    by intros w1 w2 [= -> ->]. }
  unfold construct, bind.
  pose proof (init_spec (world0 options page)) as (Hinit & _).
  destruct (init_scene (world0 options page)) as [Hs Hg].
  change (geometries (world0 options page)) with (@nil (ref * ref)) in Hg.
  destruct (init (world0 options page)) as [[[]|err] wi]; [|done]. simpl in *.
  apply Hcreate. by rewrite Hs, Hg.
Qed.

End invariants.

Lemma converged_layout_is_left_alone_witness :
  let w := (stop_calculating Standin.constructed).2 in
  let ops := [OpAnimate true; OpStopCalculating; OpRender; OpSelected None] in
  calls (run_ops ops w) = calls w
  ∧ Layout_finished <$> graph_layout (run_ops ops w) = Some true.
Proof.
  apply (converged_layout_is_left_alone (C := Standin.standin)).
  - intros l g _. reflexivity.
  - vm_compute. reflexivity.
Defined.

(** *** Labels *)

Section labels.
Context {C : Collaborators}.

Lemma hide_label_eq r w :
  hide_label r w
  = match heap w !! r with
    | None => (Thrown TypeError, w)
    | Some n =>
        match label_object n with
        | Some _ =>
            (Returned tt,
             upd_heap (alter (set_label_object None) r)
               (upd_scene (remove_first (SLabel r)) w))
        | None => (Returned tt, w)
        end
    end.
Proof.
  unfold hide_label, bind, deref. simpl.
  destruct (heap w !! r) as [n|]; [|done]. by destruct (label_object n).
Qed.

Lemma show_label_eq r w :
  show_label r w
  = match heap w !! r with
    | None => (Thrown TypeError, w)
    | Some n =>
        match label_object n with
        | Some _ =>
            match draw_object n with
            | Some _ => (Returned tt, w)
            | None => (Thrown TypeError, w)
            end
        | None =>
            (Returned tt,
             upd_scene (fun l => l ++ [SLabel r])
               (upd_heap (alter (set_label_object (Some (label_text n))) r) w))
        end
    end.
Proof.
  unfold show_label, draw_object_position, bind, deref. simpl.
  destruct (heap w !! r) as [n|] eqn:E; [|done].
  destruct (label_object n); [|done]. simpl. rewrite E.
  by destruct (draw_object n).
Qed.

Section loop.
  Variable P : NodeObj → Prop.
  Variable step : ref → M unit.
  Hypothesis step_ok : ∀ r w w',
    step r w = (Returned tt, w') →
    (∃ n, heap w' !! r = Some n ∧ P n)
    ∧ (∀ r0 n0, heap w !! r0 = Some n0 → P n0 → ∃ n0', heap w' !! r0 = Some n0' ∧ P n0').

Lemma label_loop_keeps l w w' :
  forEach step l w = (Returned tt, w') →
  ∀ r0 n0, heap w !! r0 = Some n0 → P n0 → ∃ n0', heap w' !! r0 = Some n0' ∧ P n0'.
Proof.
  revert w. induction l as [|r l IH]; intros w; simpl.
  - intros [= <-]. eauto.
  - unfold bind. destruct (step r w) as [[[]|err] w1] eqn:E; [|done].
    intros Hloop r0 n0 H0 HP.
    destruct (proj2 (step_ok _ _ _ E) r0 n0 H0 HP) as (n1 & H1 & HP1).
    by apply (IH w1 Hloop r0 n1).
Qed.

Lemma label_loop_all l w w' :
  forEach step l w = (Returned tt, w') →
  ∀ r, r ∈ l → ∃ n, heap w' !! r = Some n ∧ P n.
Proof.
  revert w. induction l as [|r l IH]; intros w; simpl.
  - by intros _ r ?%elem_of_nil.
  - unfold bind. destruct (step r w) as [[[]|err] w1] eqn:E; [|done].
    intros Hloop r' [->|Hr']%elem_of_cons; [|by apply (IH w1)].
    destruct (proj1 (step_ok _ _ _ E)) as (n & Hn & HP).
    by apply (label_loop_keeps l w1 w' Hloop r n).
Qed.
End loop.

Lemma hide_label_ok r w w' :
  hide_label r w = (Returned tt, w') →
  (∃ n, heap w' !! r = Some n ∧ label_object n = None)
  ∧ (∀ r0 n0, heap w !! r0 = Some n0 → label_object n0 = None →
       ∃ n0', heap w' !! r0 = Some n0' ∧ label_object n0' = None).
Proof.
  rewrite hide_label_eq. unfold ref in *.
  destruct (heap w !! r) as [n|] eqn:E; [|done].
  destruct (label_object n) eqn:L; intros [= <-]; simpl.
  - split.
    + exists (set_label_object None n). by rewrite list_lookup_alter_eq, E.
    + intros r0 n0 H0 L0. destruct (decide (r = r0)) as [->|Hne].
      * exists (set_label_object None n0). by rewrite list_lookup_alter_eq, H0.
      * exists n0. by rewrite list_lookup_alter_ne.
  - split; [by eauto|]. by eauto.
Qed.

Lemma show_label_ok r w w' :
  show_label r w = (Returned tt, w') →
  (∃ n, heap w' !! r = Some n ∧ is_Some (label_object n))
  ∧ (∀ r0 n0, heap w !! r0 = Some n0 → is_Some (label_object n0) →
       ∃ n0', heap w' !! r0 = Some n0' ∧ is_Some (label_object n0')).
Proof.
  rewrite show_label_eq. unfold ref in *.
  destruct (heap w !! r) as [n|] eqn:E; [|done].
  destruct (label_object n) eqn:L.
  - destruct (draw_object n); [|done]. intros [= <-].
    split; [exists n; by rewrite L|]. by eauto.
  - intros [= <-]. simpl. split.
    + exists (set_label_object (Some (label_text n)) n).
      by rewrite list_lookup_alter_eq, E.
    + intros r0 n0 H0 L0. destruct (decide (r = r0)) as [->|Hne].
      * exists (set_label_object (Some (label_text n)) n0).
        by rewrite list_lookup_alter_eq, H0.
      * exists n0. by rewrite list_lookup_alter_ne.
Qed.

Lemma poll_layout_that : preserves that poll_layout.
Proof. frame_all. Qed.

(** X14.  When a render step returns normally, every node of [graph.nodes]
    is a node object of the store; with labels shown each of them has a
    label afterwards, with labels hidden none of them has. *)
Theorem render_settles_labels (w w' : World) :
  render w = (Returned tt, w') →
  ∀ r, r ∈ Graph_nodes (graph w') →
    ∃ n, heap w' !! r = Some n
         ∧ if This.show_labels (that w) then is_Some (label_object n)
           else label_object n = None.
Proof.
  unfold render, bind, get. intros Hrender.
  pose proof (poll_layout_that w) as Hthat.
  destruct (poll_layout w) as [[[]|err] w1]; [|done]. simpl in Hthat.
  pose proof (label_loops_graph w1 w1) as Hgraph.
  rewrite Hrender in Hgraph. simpl in Hgraph. rewrite Hgraph, <- Hthat.
  destruct (This.show_labels (that w1)).
  - by apply (label_loop_all _ show_label show_label_ok _ w1).
  - by apply (label_loop_all _ hide_label hide_label_ok _ w1).
Qed.

End labels.

Lemma render_settles_labels_witness :
  let show t := This.mk (This.layout t) (This.layout_options t) (This.show_stats t)
                        (This.show_info t) true (This.selection t) (This.limit t)
                        (This.nodes_count t) (This.edges_count t) in
  let w := upd_that show Standin.constructed in
  let w' := (render w).2 in
  ∃ n, heap w' !! 70 = Some n
       ∧ if This.show_labels (that w) then is_Some (label_object n)
         else label_object n = None.
Proof.
  intros show w w'.
  apply (render_settles_labels (C := Standin.standin) w w').
  - vm_compute. reflexivity.
  - apply (bool_decide_unpack _). vm_compute. exact I.
Defined.

(** *** The info text *)

Section info.
Context {C : Collaborators}.

Lemma get_set_prop_ne k k' v o : k ≠ k' → get_prop k (set_prop k' v o) = get_prop k o.
Proof.
  intros Hne. induction o as [|[k0 v0] o IH]; simpl.
  - by rewrite decide_False.
  - destruct (decide (k0 = k')) as [->|Hk0]; simpl.
    + by rewrite !decide_False.
    + case_decide; [done|apply IH].
Qed.

Lemma get_delete_prop_ne k k' o : k ≠ k' → get_prop k (delete_prop k' o) = get_prop k o.
Proof.
  intros Hne. unfold delete_prop. induction o as [|[k0 v0] o IH]; [done|].
  rewrite filter_cons. simpl. destruct (decide (k0 = k)) as [->|Hk0].
  - rewrite decide_True by done. simpl. by rewrite decide_True.
  - case_decide; simpl; [rewrite decide_False by done|]; apply IH.
Qed.

Lemma set_prop_new k v o : get_prop k o = None → set_prop k v o = o ++ [(k, v)].
Proof.
  induction o as [|[k0 v0] o IH]; simpl; [done|].
  case_decide; [done|]. intros Hget. by rewrite IH.
Qed.

Lemma delete_prop_absent k o : get_prop k o = None → delete_prop k o = o.
Proof.
  unfold delete_prop. induction o as [|[k0 v0] o IH]; simpl; [done|].
  case_decide as Hk; [done|]. intros Hget.
  rewrite filter_cons_True by done. by rewrite IH.
Qed.

Lemma delete_prop_last k v o : get_prop k o = None → delete_prop k (o ++ [(k, v)]) = o.
Proof.
  intros H. unfold delete_prop. rewrite filter_app.
  fold (delete_prop k o). rewrite delete_prop_absent by done.
  rewrite filter_cons_False by (simpl; by intros ?). by rewrite app_nil_r.
Qed.

Lemma selected_counts obj :
  preserves (fun w => (get_prop "nodes" (info_text w), get_prop "edges" (info_text w)))
            (selected obj).
Proof.
  intros w. destruct obj as [i|]; simpl.
  - by rewrite !get_set_prop_ne.
  - by rewrite !get_delete_prop_ne.
Qed.

Lemma render_counts :
  preserves (fun w => (get_prop "nodes" (info_text w), get_prop "edges" (info_text w)))
            render.
Proof.
  assert (∀ v, preserves (fun w => (get_prop "nodes" (info_text w),
                                    get_prop "edges" (info_text w)))
                         (set_info "calc" v)) as Hcalc.
  { intros v w. simpl. by rewrite !get_set_prop_ne. }
  unfold render. apply preserves_bind; [|frame_all].
  unfold poll_layout. apply preserves_bind; [frame|]. intros w.
  destruct (graph_layout w); [|frame].
  apply preserves_if; [|done]. apply preserves_bind; [done|]. frame_all.
Qed.

Lemma run_op_counts op :
  preserves (fun w => (get_prop "nodes" (info_text w), get_prop "edges" (info_text w)))
            (run_op op).
Proof.
  destruct op as [changed| | | |obj]; simpl.
  - unfold animate.
    apply preserves_bind;
      [apply preserves_if; [apply render_counts|apply preserves_ret]|]. intros _.
    apply preserves_bind; [apply render_counts|]. intros _.
    apply preserves_bind; [apply preserves_get|]. intros w.
    apply preserves_if; frame_all.
  - apply render_counts.
  - frame_all.
  - frame_all.
  - apply selected_counts.
Qed.

(** What [createGraph] leaves in [info_text] when it returns. *)
Lemma createGraph_counts w w' :
  createGraph w = (Returned tt, w') →
  get_prop "nodes" (info_text w')
    = Some ("Nodes " +:+ pretty (length (Graph_nodes (graph w'))))
  ∧ get_prop "edges" (info_text w')
    = Some ("Edges " +:+ pretty (length (Graph_edges (graph w')))).
Proof.
  unfold createGraph, bind.
  destruct (populate _ _ w) as [[[]|err] wp]; [|done].
  unfold start_layout, modify, get, set_info. simpl.
  destruct (Layout_init _ _) as [l' g']. simpl. intros [= <-]. simpl.
  by rewrite get_set_prop_ne, !get_set_prop.
Qed.

(** X15.  If [createGraph] returns normally and the layout adds or removes
    no node or edge of the graph, the "Nodes" and "Edges" entries of
    [info_text] give the actual sizes of [graph.nodes] and [graph.edges]
    after every later frame, render, [printInfo], [stop_calculating] and
    selection. *)
Theorem info_counts_stay_right (w0 w1 : World) (ops : list Op) :
  layout_keeps_graph C →
  createGraph w0 = (Returned tt, w1) →
  let w := run_ops ops w1 in
  get_prop "nodes" (info_text w)
    = Some ("Nodes " +:+ pretty (length (Graph_nodes (graph w))))
  ∧ get_prop "edges" (info_text w)
    = Some ("Edges " +:+ pretty (length (Graph_edges (graph w)))).
Proof.
  intros Hkeep Hcreate w.
  pose proof (run_ops_preserves _ ops w1 run_op_counts) as Hcounts.
  pose proof (run_ops_shape ops w1 Hkeep) as Hshape.
  fold w in Hcounts, Hshape. simpl in Hcounts.
  injection Hcounts as -> ->. unfold graph_shape in Hshape.
  injection Hshape as -> -> _.
  by apply createGraph_counts with w0.
Qed.

(** X16.  Selecting an object when none is selected appends its entry to
    [info_text], so that the info line gains "Object <id>" as its last item,
    after " - " unless the line was empty; deselecting it then puts the
    world back exactly as it was. *)
Theorem select_then_deselect (w : World) (i : string) :
  get_prop "select" (info_text w) = None →
  let ws := (selected (Some i) w).2 in
  info_text ws = info_text w ++ [("select", "Object " +:+ i)]
  ∧ info_string (info_text ws)
    = (if decide (info_string (info_text w) = "") then "Object " +:+ i
       else info_string (info_text w) +:+ " - " +:+ "Object " +:+ i)
  ∧ (selected None ws).2 = w.
Proof.
  intros Hnone ws.
  assert (info_text ws = info_text w ++ [("select", "Object " +:+ i)]) as Hws
    by (unfold ws; simpl; by apply set_prop_new).
  split_and!; [done| |].
  - rewrite Hws. unfold info_string. rewrite fold_left_app. simpl.
    fold (info_string (info_text w)). rewrite info_step_join2. unfold join2.
    case_decide; [done|]. by rewrite decide_False.
  - unfold ws, selected, set_info, modify, upd_info_text. simpl.
    rewrite set_prop_new, delete_prop_last by done. by destruct w.
Qed.

Lemma set_innerHTML_first i s doc :
  match getElementById i doc with
  | None => set_innerHTML i s doc = None
  | Some e =>
      ∃ d1 d2, doc = d1 ++ e :: d2
               ∧ Forall (fun x => elem_id x ≠ Some i) d1
               ∧ set_innerHTML i s doc = Some (d1 ++ mkElement (tagName e) (elem_id e) s :: d2)
  end.
Proof.
  induction doc as [|e0 doc IH]; [done|].
  rewrite getElementById_cons. simpl. case_decide as Hid.
  - by exists [], doc.
  - destruct (getElementById i doc) as [e|].
    + destruct IH as (d1 & d2 & -> & Hd1 & ->).
      exists (e0 :: d1), d2. split_and!; [done| |done]. by constructor.
    + by rewrite IH.
Qed.

(** X17.  [printInfo] throws a TypeError, changing nothing, when the page
    has no element with id "graph-info"; otherwise it returns normally and
    rewrites the [innerHTML] of the first such element in document order,
    to the joined text, and nothing else of the page or the world. *)
Theorem printInfo_rewrites_first_match (w : World) :
  let text := String.concat " - " (filter (fun s => s ≠ "") (info_text w).*2) in
  match getElementById "graph-info" (document w) with
  | None => printInfo w = (Thrown TypeError, w)
  | Some e =>
      ∃ d1 d2,
        document w = d1 ++ e :: d2
        ∧ Forall (fun x => elem_id x ≠ Some "graph-info") d1
        ∧ printInfo w
          = (Returned tt,
             upd_document (fun _ => d1 ++ mkElement (tagName e) (elem_id e) text :: d2) w)
  end.
Proof.
  intros text. unfold text. rewrite <- info_string_join.
  pose proof (set_innerHTML_first "graph-info" (info_string (info_text w)) (document w))
    as H.
  unfold printInfo. destruct (getElementById _ _) as [e|].
  - destruct H as (d1 & d2 & Hdoc & Hd1 & ->). by exists d1, d2.
  - by rewrite H.
Qed.

End info.

Lemma info_counts_stay_right_witness :
  let w0 := (init Standin.example_world).2 in
  let w1 := (createGraph w0).2 in
  let w := run_ops [OpAnimate true; OpSelected (Some "T7"); OpStopCalculating] w1 in
  get_prop "nodes" (info_text w)
    = Some ("Nodes " +:+ pretty (length (Graph_nodes (graph w))))
  ∧ get_prop "edges" (info_text w)
    = Some ("Edges " +:+ pretty (length (Graph_edges (graph w)))).
Proof.
  intros w0 w1.
  apply (info_counts_stay_right (C := Standin.standin) w0 w1).
  - intros l g. simpl. done.
  - vm_compute. reflexivity.
Defined.

Lemma select_then_deselect_witness :
  let w := Standin.constructed in
  let ws := (selected (Some "T344049175") w).2 in
  info_text ws = info_text w ++ [("select", "Object " +:+ "T344049175")]
  ∧ info_string (info_text ws)
    = (if decide (info_string (info_text w) = "") then "Object " +:+ "T344049175"
       else info_string (info_text w) +:+ " - " +:+ "Object " +:+ "T344049175")
  ∧ (selected None ws).2 = w.
Proof.
  apply (select_then_deselect (C := Standin.standin) Standin.constructed "T344049175").
  vm_compute. reflexivity.
Defined.

End DrawingExtras.
